(** * PriorityQueue<K, V>: a shallow embedding of priorityqueue.hh

    The container keeps two indices over one set of elements:
    [sorted_by_value], a [std::multiset] ordered by value then key, and
    [sorted_by_key], a [std::map] from keys to a [std::map] from values
    to a [std::multiset] of elements.  Keys and values live behind
    [std::shared_ptr]s, so an element is a pair of pointers.

    Modelling choices.
    - A [shared_ptr<T>] is a record of an address and the object it
      points to (objects are never written after [make_shared]).
      Pointer comparison ([==], [<] on [shared_ptr]) looks at the
      address only; the comparer classes dereference.
    - The ordered STL containers are lists kept in comparator order;
      an iterator is a position in the list.
    - A container operation that calls the comparator or allocates a
      node may throw, and so may [std::make_shared] (assumption 1 at
      the top of the source file: its [std::bad_alloc] "may be thrown"
      and is not handled).  The world carries a fault budget: [Some n]
      lets [n] such steps succeed and makes the next one throw, once;
      [None] never throws.  A throwing step has no effect (the strong
      guarantee of the STL the source relies on).
    - A failed [assert] aborts the program, and so does undefined
      behaviour: neither has a continuation. *)

From Stdlib Require Import ZArith String Bool Lia.
From stdpp Require Import base tactics option list sorting.

Local Open Scope nat_scope.
Local Open Scope list_scope.

(** ** Pointers, exceptions, the world *)

Record ptr (A : Type) := Ptr { addr : nat; obj : A }.
Arguments Ptr {A} _ _.
Arguments addr {A} _.
Arguments obj {A} _.

Inductive exn :=
| PriorityQueueEmptyException
| PriorityQueueNotFoundException
| PriorityQueueInsertionException
| ContainerFailure    (* what a comparator or a node allocation throws *)
| BadAlloc.           (* std::bad_alloc of std::make_shared *)

Inductive outcome (A : Type) :=
| Ret (a : A)
| Throw (e : exn)
| Abort.
Arguments Ret {A} _.
Arguments Throw {A} _.
Arguments Abort {A}.

Record world := World { next_addr : nat; fault : option nat }.

(** ** A state and exception monad *)

Definition M (St A : Type) : Type := St → world → outcome A * St * world.

Global Instance M_ret {St} : MRet (M St) := λ A a s w, (Ret a, s, w).

Global Instance M_bind {St} : MBind (M St) := λ A B k m s w,
  match m s w with
  | (Ret a, s', w') => k a s' w'
  | (Throw e, s', w') => (Throw e, s', w')
  | (Abort, s', w') => (Abort, s', w')
  end.

Definition get {St} : M St St := λ s w, (Ret s, s, w).
Definition modify {St} (f : St → St) : M St unit := λ s w, (Ret (), f s, w).
Definition throw {St A} (e : exn) : M St A := λ s w, (Throw e, s, w).
Definition abort {St A} : M St A := λ s w, (Abort, s, w).

(** [assert(b)] *)
Definition assert {St} (b : bool) : M St unit :=
  if b then mret () else abort.

(** Dereferencing an iterator that was just asserted not to be [end()]. *)
Definition assert_some {St A} (o : option A) : M St A :=
  match o with Some a => mret a | None => abort end.

(** [try { body } catch (...) { handler }]; the handler receives the
    exception so that it can rethrow it with [throw;]. *)
Definition try_catch {St A} (body : M St A) (handler : exn → M St A) : M St A :=
  λ s w, match body s w with
         | (Throw e, s', w') => handler e s' w'
         | r => r
         end.

(** A point where a comparator or a node allocation may throw. *)
Definition tick {St} : M St unit :=
  λ s w, match fault w with
         | None => (Ret (), s, w)
         | Some (S n) => (Ret (), s, World (next_addr w) (Some n))
         | Some O => (Throw ContainerFailure, s, World (next_addr w) None)
         end.

(** [std::make_shared<T>(x)]: a fresh address holding a copy of [x],
    or [std::bad_alloc] when the allocation fails. *)
Definition make_shared {St A} (x : A) : M St (ptr A) :=
  λ s w, match fault w with
         | None => (Ret (Ptr (next_addr w) x), s, World (S (next_addr w)) None)
         | Some (S n) => (Ret (Ptr (next_addr w) x), s, World (S (next_addr w)) (Some n))
         | Some O => (Throw BadAlloc, s, World (next_addr w) None)
         end.

(** Local variables that a [try] block writes and its [catch] reads
    travel in the state next to the object. *)
Definition with_locals {St L A} (l0 : L) (m : M (St * L) A) : M St A :=
  λ s w, let r := m (s, l0) w in (r.1.1, r.1.2.1, r.2).

(** Range-based [for]. *)
Fixpoint for_each {St A} (l : list A) (body : A → M St unit) : M St unit :=
  match l with
  | [] => mret ()
  | x :: l' => body x;; for_each l' body
  end.

(** ** Ordered containers as lists *)

Section OrderedContainer.
Context {A Key : Type} (key_of : A → Key) (lt : Key → Key → bool).

(** Equivalence induced by a strict ordering: neither is less. *)
Definition equiv (a b : Key) : bool := negb (lt a b) && negb (lt b a).

(** Position of the first entry greater than [k]. *)
Fixpoint upper_bound (k : Key) (l : list A) : nat :=
  match l with
  | [] => 0
  | y :: l' => if lt k (key_of y) then 0 else S (upper_bound k l')
  end.

Definition insert_at (i : nat) (x : A) (l : list A) : list A :=
  take i l ++ x :: drop i l.

(** [multiset::insert(x)]: after the entries equivalent to [x];
    returns the iterator to the new entry. *)
Definition oc_insert (x : A) (l : list A) : nat * list A :=
  let i := upper_bound (key_of x) l in (i, insert_at i x l).

(** [find(k)]: the first entry with a key equivalent to [k]. *)
Fixpoint find_pos (k : Key) (l : list A) : option nat :=
  match l with
  | [] => None
  | y :: l' => if equiv k (key_of y) then Some 0 else S <$> find_pos k l'
  end.

(** [erase(k)]: removes every entry with a key equivalent to [k]. *)
Definition erase_key (k : Key) (l : list A) : list A :=
  List.filter (λ y, negb (equiv k (key_of y))) l.

(** [map::try_emplace] and [map::insert] of one entry: no effect when
    an equivalent key is present; returns the iterator and whether
    the entry was inserted. *)
Definition try_emplace (x : A) (l : list A) : nat * bool * list A :=
  match find_pos (key_of x) l with
  | Some i => (i, false, l)
  | None => let i := upper_bound (key_of x) l in (i, true, insert_at i x l)
  end.
End OrderedContainer.

(** [it->second] and an update of [it->second] in place, for a map
    whose mapped values are containers. *)
Definition second_at {Key C} (i : nat) (m : list (Key * list C)) : list C :=
  from_option snd [] (m !! i).

Definition on_second {Key B} (f : B → B) (i : nat) (m : list (Key * B)) : list (Key * B) :=
  alter (prod_map id f) i m.

(** [m[k]] updated by [f]: [operator[]] creates the entry when absent. *)
Definition at_key {Key C} (lt : Key → Key → bool) (k : Key) (f : list C → list C)
    (m : list (Key * list C)) : list (Key * list C) :=
  let r := try_emplace fst lt (k, []) m in on_second f r.1.1 r.2.

Definition is_nil {A} (l : list A) : bool :=
  match l with [] => true | _ => false end.

(** An update of [it->second] followed by the erasure of the entry
    when its container became empty: the pattern of the modification
    block of [deleteMin] and [deleteMax]. *)
Definition update_pruning {Key C} (f : list C → list C) (i : nat)
    (m : list (Key * list C)) : list (Key * list C) :=
  let m1 := on_second f i m in
  if is_nil (second_at i m1) then delete i m1 else m1.

(** All that the mapped containers of one level hold. *)
Definition level_elements {Key C E} (elems : list C → list E)
    (m : list (Key * list C)) : list E :=
  mbind (M := list) (λ kb, elems kb.2) m.

(** ** The class template *)

(** The types of the class, as abbreviations. *)
Abbreviation key_ptr K := (ptr K) (only parsing).
Abbreviation value_ptr V := (ptr V) (only parsing).
Abbreviation element K V := (ptr K * ptr V)%type (only parsing).
Abbreviation element_set K V := (list (ptr K * ptr V)) (only parsing).
Abbreviation value_map K V := (list (ptr V * list (ptr K * ptr V))) (only parsing).
Abbreviation key_map K V := (list (ptr K * list (ptr V * list (ptr K * ptr V)))) (only parsing).

Section PriorityQueue.
Context {K V : Type} (ltK : K → K → bool) (ltV : V → V → bool).

(** Sorter classes. *)
Definition KeyComparer (lhs rhs : key_ptr K) : bool := ltK (obj lhs) (obj rhs).
Definition ValueComparer (lhs rhs : value_ptr V) : bool := ltV (obj lhs) (obj rhs).
Definition ValueKeyComparer (lhs rhs : element K V) : bool :=
  if ltV (obj lhs.2) (obj rhs.2) then true
  else if ltV (obj rhs.2) (obj lhs.2) then false
  else ltK (obj lhs.1) (obj rhs.1).

(** The default ordering and equality of [std::pair] of
    [shared_ptr]s, used by [std::multiset<element>] and by the
    comparison of two [sorted_by_value] containers: by address. *)
Definition ptr_less {A} (a b : ptr A) : bool := addr a <? addr b.
Definition ptr_eq {A} (a b : ptr A) : bool := addr a =? addr b.
Definition element_less (lhs rhs : element K V) : bool :=
  ptr_less lhs.1 rhs.1 || (negb (ptr_less rhs.1 lhs.1) && ptr_less lhs.2 rhs.2).
Definition element_eq (lhs rhs : element K V) : bool :=
  ptr_eq lhs.1 rhs.1 && ptr_eq lhs.2 rhs.2.

Record queue := Queue {
  sorted_by_value : list (element K V);   (* by value, then by key *)
  sorted_by_key : key_map K V             (* by key, then value, then addresses *)
}.

Definition set_by_value (f : list (element K V) → list (element K V)) (q : queue) : queue :=
  Queue (f (sorted_by_value q)) (sorted_by_key q).
Definition set_by_key (f : key_map K V → key_map K V) (q : queue) : queue :=
  Queue (sorted_by_value q) (f (sorted_by_key q)).

(** [PriorityQueue() = default] *)
Definition empty_queue : queue := Queue [] [].

Definition empty (q : queue) : bool := is_nil (sorted_by_value q).
Definition size (q : queue) : nat := length (sorted_by_value q).

(** *** insert *)

Record insert_locals := InsertLocals {
  it1 : nat; it2 : nat; it3 : nat; it4 : nat;
  al1 : bool; al2 : bool; al3 : bool; al4 : bool
}.

(** [it1 = sorted_by_value.insert(pair_by_value); al1 = true;] *)
Definition insert_by_value (e : element K V) (s : queue * insert_locals) : queue * insert_locals :=
  let q := s.1 in
  let l := s.2 in
  let r := oc_insert id ValueKeyComparer e (sorted_by_value q) in
  (set_by_value (λ _, r.2) q,
   InsertLocals r.1 (it2 l) (it3 l) (it4 l) true (al2 l) (al3 l) (al4 l)).

(** [std::tie(it2, al2) = sorted_by_key.try_emplace(k);] *)
Definition insert_key_group (k : key_ptr K) (s : queue * insert_locals) : queue * insert_locals :=
  let q := s.1 in
  let l := s.2 in
  let r := try_emplace fst KeyComparer (k, []) (sorted_by_key q) in
  (set_by_key (λ _, r.2) q,
   InsertLocals (it1 l) r.1.1 (it3 l) (it4 l) (al1 l) r.1.2 (al3 l) (al4 l)).

(** [std::tie(it3, al3) = it2->second.try_emplace(v);] *)
Definition insert_value_group (v : value_ptr V) (s : queue * insert_locals) : queue * insert_locals :=
  let q := s.1 in
  let l := s.2 in
  let r := try_emplace fst ValueComparer (v, []) (second_at (it2 l) (sorted_by_key q)) in
  (set_by_key (on_second (λ _, r.2) (it2 l)) q,
   InsertLocals (it1 l) (it2 l) r.1.1 (it4 l) (al1 l) (al2 l) r.1.2 (al4 l)).

(** [it4 = it3->insert(pair_by_value); al4 = true;]
    [it3] points to an entry of the value map, so the set that
    receives the element is [it3->second], as in the [catch] block. *)
Definition insert_in_set (e : element K V) (s : queue * insert_locals) : queue * insert_locals :=
  let q := s.1 in
  let l := s.2 in
  let r := oc_insert id element_less e
             (second_at (it3 l) (second_at (it2 l) (sorted_by_key q))) in
  (set_by_key (on_second (on_second (λ _, r.2) (it3 l)) (it2 l)) q,
   InsertLocals (it1 l) (it2 l) (it3 l) r.1 (al1 l) (al2 l) (al3 l) true).

(** The [catch (...)] block of [insert], before its [throw]. *)
Definition insert_undo (s : queue * insert_locals) : queue * insert_locals :=
  let q := s.1 in
  let l := s.2 in
  let q := if al4 l then set_by_key (on_second (on_second (delete (it4 l)) (it3 l)) (it2 l)) q else q in
  let q := if al3 l then set_by_key (on_second (delete (it3 l)) (it2 l)) q else q in
  let q := if al2 l then set_by_key (delete (it2 l)) q else q in
  let q := if al1 l then set_by_value (delete (it1 l)) q else q in
  (q, l).

Definition no_locals : insert_locals :=
  InsertLocals 0 0 0 0 false false false false.

Definition insert (key : K) (value : V) : M queue unit :=
  k ← make_shared key;
  v ← make_shared value;
  let pair_by_value := (k, v) in
  with_locals no_locals
    (try_catch
       (tick;; modify (insert_by_value pair_by_value);;
        tick;; modify (insert_key_group k);;
        tick;; modify (insert_value_group v);;
        tick;; modify (insert_in_set pair_by_value))
       (λ _, modify insert_undo;;
             throw PriorityQueueInsertionException)).

(** *** Accessors *)

Definition minValue (q : queue) : outcome V :=
  if empty q then Throw PriorityQueueEmptyException
  else match head (sorted_by_value q) with
       | Some e => Ret (obj e.2)
       | None => Abort
       end.
Definition maxValue (q : queue) : outcome V :=
  if empty q then Throw PriorityQueueEmptyException
  else match last (sorted_by_value q) with
       | Some e => Ret (obj e.2)
       | None => Abort
       end.
Definition minKey (q : queue) : outcome K :=
  if empty q then Throw PriorityQueueEmptyException
  else match head (sorted_by_value q) with
       | Some e => Ret (obj e.1)
       | None => Abort
       end.
Definition maxKey (q : queue) : outcome K :=
  if empty q then Throw PriorityQueueEmptyException
  else match last (sorted_by_value q) with
       | Some e => Ret (obj e.1)
       | None => Abort
       end.

(** *** deleteMin, deleteMax *)

(** The "Modyfikacje" block on [sorted_by_key], shared by both. *)
Definition erase_from_key_index (kit vit ait : nat) (m : key_map K V) : key_map K V :=
  let m := on_second (on_second (delete ait) vit) kit m in
  let m := if is_nil (second_at vit (second_at kit m))
           then on_second (delete vit) kit m else m in
  if is_nil (second_at kit m) then delete kit m else m.

(** The three lookups with their asserts, then the modifications of
    [sorted_by_key]. *)
Definition unlink (e : element K V) : M queue unit :=
  q ← get;
  tick;;
  kit ← assert_some (find_pos fst KeyComparer e.1 (sorted_by_key q));
  tick;;
  vit ← assert_some (find_pos fst ValueComparer e.2 (second_at kit (sorted_by_key q)));
  ait ← assert_some (find_pos id element_less e
                       (second_at vit (second_at kit (sorted_by_key q))));
  modify (set_by_key (erase_from_key_index kit vit ait)).

Definition deleteMin : M queue unit :=
  q ← get;
  if empty q then mret ()
  else
    e ← assert_some (head (sorted_by_value q));
    unlink e;;
    modify (set_by_value (delete 0)).

Definition deleteMax : M queue unit :=
  q ← get;
  if empty q then mret ()
  else
    e ← assert_some (last (sorted_by_value q));
    unlink e;;
    modify (set_by_value (delete (pred (length (sorted_by_value q))))).
(** *** changeValue

    The source marks this method as not yet ported to the nested
    [sorted_by_key] (its TODO), and three of its statements do not
    fit the types of the new containers.  They are read as the same
    call on the entry the argument stands for:
    - [ov] is the first entry of the key group, a value pointer with
      its set; [sorted_by_value.erase(deleted_pair)] and
      [sorted_by_value.insert(deleted_pair)] act on the element
      [(k, ov.first)], and [erase] with an element argument is the
      erase-by-key overload, which removes every equivalent element;
    - [es_it->second.insert(nv)] adds an entry for [nv] to the key
      group, with an empty set, unless an equivalent value is there.
    [es_it->second.erase(nv)] and [es_it->second.insert(ov)] are
    well typed as they stand. *)
Definition changeValue (key : K) (value : V) : M queue unit :=
  k ← make_shared key;
  q ← get;
  tick;;
  match find_pos fst KeyComparer k (sorted_by_key q) with
  | None => throw PriorityQueueNotFoundException
  | Some es_it =>
      assert (negb (is_nil (second_at es_it (sorted_by_key q))));;
      ov ← assert_some (head (second_at es_it (sorted_by_key q)));
      modify (set_by_key (on_second (delete 0) es_it));;
      let deleted_pair : element K V := (k, ov.1) in
      tick;;
      modify (set_by_value (erase_key id ValueKeyComparer deleted_pair));;
      nv ← make_shared value;
      try_catch
        (tick;;
         modify (set_by_key (on_second (λ g, (try_emplace fst ValueComparer (nv, []) g).2) es_it));;
         try_catch
           (tick;;
            modify (set_by_value (λ c, (oc_insert id ValueKeyComparer (k, nv) c).2)))
           (λ ex,
              modify (set_by_key (on_second (erase_key fst ValueComparer nv) es_it));;
              throw ex))
        (λ _,
           modify (set_by_key (on_second (λ g, (try_emplace fst ValueComparer ov g).2) es_it));;
           modify (set_by_value (λ c, (oc_insert id ValueKeyComparer deleted_pair c).2));;
           throw PriorityQueueInsertionException)
  end.

(** *** merge

    The state is the pair of the receiver and the argument, with the
    two rollback containers as locals. *)

Record merge_locals := MergeLocals {
  sorted_by_value_rollback : list (element K V);
  sorted_by_key_rollback : key_map K V
}.

Definition merge_state : Type := (queue * queue) * merge_locals.

Definition on_this (f : queue → queue) (s : merge_state) : merge_state :=
  ((f s.1.1, s.1.2), s.2).
Definition on_other (f : queue → queue) (s : merge_state) : merge_state :=
  ((s.1.1, f s.1.2), s.2).
Definition on_value_rollback (f : list (element K V) → list (element K V)) (s : merge_state) : merge_state :=
  (s.1, MergeLocals (f (sorted_by_value_rollback s.2)) (sorted_by_key_rollback s.2)).
Definition on_key_rollback (f : key_map K V → key_map K V) (s : merge_state) : merge_state :=
  (s.1, MergeLocals (sorted_by_value_rollback s.2) (f (sorted_by_key_rollback s.2))).

(** [m[k][v].insert(e)] *)
Definition insert_at_key_value (e : element K V) (m : key_map K V) : key_map K V :=
  at_key KeyComparer e.1
    (at_key ValueComparer e.2 (λ c, (oc_insert id element_less e c).2)) m.

(** The body of the [for] loop.  [sorted_by_key.insert(k, key_map)]
    and [sorted_by_key[k].insert(v, elem_set)] are read as the
    [insert] of the entry made of the two arguments.  On the receiver
    [sorted_by_key[k]] and [sorted_by_key[k][v]] find the entries that
    the two statements before them inserted, so each of these
    statements changes the receiver in its last call only and is one
    step; on [sorted_by_key_rollback] the two [operator[]] may each
    add an entry, and the statement is three steps. *)
Definition merge_transfer (e : element K V) : M merge_state unit :=
  let k := e.1 in
  let v := e.2 in
  let by_value : element K V := (k, v) in
  tick;;
  modify (on_this (set_by_value (λ c, (oc_insert id ValueKeyComparer by_value c).2)));;
  tick;;
  modify (on_value_rollback (λ c, (oc_insert id ValueKeyComparer by_value c).2));;
  tick;;
  modify (on_this (set_by_key (λ m, (try_emplace fst KeyComparer (k, []) m).2)));;
  tick;;
  modify (on_this (set_by_key
            (at_key KeyComparer k (λ g, (try_emplace fst ValueComparer (v, []) g).2))));;
  let new_elem : element K V := (k, v) in
  tick;;
  modify (on_this (set_by_key (insert_at_key_value new_elem)));;
  (* sorted_by_key_rollback[k][v].insert(new_elem): each [operator[]]
     adds an entry when there is none, and each of the three calls
     may throw *)
  tick;;
  modify (on_key_rollback (λ m, (try_emplace fst KeyComparer (k, []) m).2));;
  tick;;
  modify (on_key_rollback
            (at_key KeyComparer k (λ g, (try_emplace fst ValueComparer (v, []) g).2)));;
  tick;;
  modify (on_key_rollback (insert_at_key_value new_elem)).

(** The state after one passage through the body of the loop. *)
Definition merge_transfer_effect (e : element K V) (s : merge_state) : merge_state :=
  let k := e.1 in
  let v := e.2 in
  let s := on_this (set_by_value (λ c, (oc_insert id ValueKeyComparer (k, v) c).2)) s in
  let s := on_value_rollback (λ c, (oc_insert id ValueKeyComparer (k, v) c).2) s in
  let s := on_this (set_by_key (λ m, (try_emplace fst KeyComparer (k, []) m).2)) s in
  let s := on_this (set_by_key
             (at_key KeyComparer k (λ g, (try_emplace fst ValueComparer (v, []) g).2))) s in
  let s := on_this (set_by_key (insert_at_key_value (k, v))) s in
  let s := on_key_rollback (λ m, (try_emplace fst KeyComparer (k, []) m).2) s in
  let s := on_key_rollback
             (at_key KeyComparer k (λ g, (try_emplace fst ValueComparer (v, []) g).2)) s in
  on_key_rollback (insert_at_key_value (k, v)) s.

(** The first loop of the [catch (...)] block of [merge]:
    [sorted_by_value.erase(elem)] is the erase-by-key overload, which
    removes every element equivalent to [elem]. *)
Definition merge_undo_by_value (s : merge_state) : merge_state :=
  foldl (λ s elem, on_this (set_by_value (erase_key id ValueKeyComparer elem)) s)
    s (sorted_by_value_rollback s.2).

(** The body of its second loop,
    [sorted_by_key[elem.first].erase(elem.second.begin())].
    The loop variable is declared [auto elem], a copy of the entry of
    [sorted_by_key_rollback]; [elem.second.begin()] is an iterator of
    that copy and not of [sorted_by_key[elem.first]], so the call of
    [erase] has undefined behaviour for every entry. *)
Definition merge_undo_by_key (elem : key_ptr K * value_map K V) : M merge_state unit :=
  modify (on_this (set_by_key (λ m, (try_emplace fst KeyComparer (elem.1, []) m).2)));;
  abort.

Definition merge_undo : M merge_state unit :=
  modify merge_undo_by_value;;
  s ← get;
  for_each (sorted_by_key_rollback s.2) merge_undo_by_key.

Definition merge_distinct : M (queue * queue) unit :=
  with_locals (MergeLocals [] [])
    (try_catch
       (s ← get;
        for_each (sorted_by_value s.1.2) merge_transfer;;
        modify (on_other (set_by_value (λ _, [])));;
        modify (on_other (set_by_key (λ _, []))))
       (λ _, merge_undo;;
             throw PriorityQueueEmptyException)).

(** Queues are objects in a store, a list of queues addressed by
    position; [merge] compares the addresses of the receiver and of
    its argument. *)

Definition merge (this other : nat) : M (list queue) unit :=
  λ st w,
    if decide (this = other) then (Ret (), st, w)
    else match st !! this, st !! other with
         | Some a, Some b =>
             let r := merge_distinct (a, b) w in
             (r.1.1, <[other := r.1.2.2]> (<[this := r.1.2.1]> st), r.2)
         | _, _ => (Abort, st, w)   (* not a reference to a queue *)
         end.

(** *** swap *)
Definition swap (this other : nat) : M (list queue) unit :=
  λ st w,
    if decide (this = other) then (Ret (), st, w)
    else match st !! this, st !! other with
         | Some a, Some b => (Ret (), <[other := a]> (<[this := b]> st), w)
         | _, _ => (Abort, st, w)
         end.

(** *** Comparison operators

    They compare the two [sorted_by_value] containers with the
    containers' own [operator==] and [operator<], which use
    [operator==] and [operator<] of the elements. *)

(** [std::equal] after the comparison of the sizes. *)
Fixpoint seq_equal (l r : list (element K V)) : bool :=
  match l, r with
  | [], [] => true
  | a :: l', b :: r' => element_eq a b && seq_equal l' r'
  | _, _ => false
  end.

(** [std::lexicographical_compare] *)
Fixpoint lexicographical_compare (l r : list (element K V)) : bool :=
  match l, r with
  | _, [] => false
  | [], _ :: _ => true
  | a :: l', b :: r' =>
      if element_less a b then true
      else if element_less b a then false
      else lexicographical_compare l' r'
  end.

Definition queue_eq (lhs rhs : queue) : bool :=
  seq_equal (sorted_by_value lhs) (sorted_by_value rhs).
Definition queue_ne (lhs rhs : queue) : bool :=
  negb (seq_equal (sorted_by_value lhs) (sorted_by_value rhs)).
Definition queue_lt (lhs rhs : queue) : bool :=
  lexicographical_compare (sorted_by_value lhs) (sorted_by_value rhs).
Definition queue_gt (lhs rhs : queue) : bool := queue_lt rhs lhs.
Definition queue_le (lhs rhs : queue) : bool := negb (queue_gt lhs rhs).
Definition queue_ge (lhs rhs : queue) : bool := negb (queue_lt lhs rhs).
End PriorityQueue.

Arguments empty_queue {K V}.

(** ** What the two indices hold *)

(** The addresses of the key and of the value of an element: its
    identity. *)
Definition idents {K V} (e : element K V) : nat * nat := (addr e.1, addr e.2).

(** The key and the value an element carries. *)
Definition contents {K V} (e : element K V) : K * V := (obj e.1, obj e.2).

(** All elements of [sorted_by_key], over key groups and value
    sub-groups. *)
Definition value_map_elements {K V} (g : value_map K V) : list (element K V) :=
  mbind (M := list) snd g.
Definition key_index_elements {K V} (m : key_map K V) : list (element K V) :=
  mbind (M := list) (λ kg, value_map_elements kg.2) m.

(** The two indices hold the same elements, with the same identities,
    the same number of times. *)
Definition dual_index_consistent {K V} (q : @queue K V) : Prop :=
  idents <$> sorted_by_value q ≡ₚ idents <$> key_index_elements (sorted_by_key q).

(** ** The instance of the scenarios: integer keys, string values *)

Definition int_less : Z → Z → bool := Z.ltb.
Definition string_less : string → string → bool := String.ltb.

Definition insert_all {K V} (ltK : K → K → bool) (ltV : V → V → bool)
    (kvs : list (K * V)) : M (@queue K V) unit :=
  for_each kvs (λ kv, insert ltK ltV kv.1 kv.2).

Definition fresh_world : world := World 0 None.

(** The element that [insert(key, value)] creates in the world [w]. *)
Definition new_element {K V} (w : world) (key : K) (value : V) : element K V :=
  (Ptr (next_addr w) key, Ptr (S (next_addr w)) value).

(** One of the next [n] fallible steps throws. *)
Definition fault_within (n : nat) (w : world) : Prop :=
  ∃ k, fault w = Some k ∧ k < n.

(** The queue built by inserting [kvs] into an empty queue, in a
    world where nothing throws and [a] is the next free address. *)
Definition queue_of {K V} (ltK : K → K → bool) (ltV : V → V → bool)
    (a : nat) (kvs : list (K * V)) : @queue K V :=
  (insert_all ltK ltV kvs empty_queue (World a None)).1.2.

(** Two queues in a store: one element, then two. *)
Definition example_receiver : @queue Z string :=
  queue_of Z.ltb String.ltb 0 [(5%Z, "x"%string)].
Definition example_argument : @queue Z string :=
  queue_of Z.ltb String.ltb 2 [(1%Z, "a"%string); (2%Z, "b"%string)].
Definition example_store : list (@queue Z string) :=
  [example_receiver; example_argument].

(** The sequence of (value, key) pairs of the value index. *)
Definition value_key_pairs {K V} (q : @queue K V) : list (V * K) :=
  (λ e, (obj e.2, obj e.1)) <$> sorted_by_value q.

(** The sequence of identities of the value index. *)
Definition identity_sequence {K V} (q : @queue K V) : list (nat * nat) :=
  idents <$> sorted_by_value q.

Local Open Scope string_scope.
Local Open Scope Z_scope.

(** The outcome of [changeValue(1, "z")] on the queue built by
    inserting [kvs]: it returns, the size is still 2, and the queue
    holds (1, "c") and (1, "z"). *)
Definition changeValue_scenario (kvs : list (Z * string)) : Prop :=
  ∃ q w q' w',
    insert_all int_less string_less kvs empty_queue fresh_world = (Ret (), q, w)
    ∧ size q = 2%nat
    ∧ changeValue int_less string_less 1 "z" q w = (Ret (), q', w')
    ∧ size q' = size q
    ∧ contents <$> sorted_by_value q' = [(1, "c"); (1, "z")].

Local Close Scope Z_scope.
Local Close Scope string_scope.

(** ** Orderings *)

(** What the STL asks of a comparator: a strict weak ordering. *)
Class StrictWeakOrder {A} (lt : A → A → bool) : Prop := {
  swo_irrefl x : lt x x = false;
  swo_trans x y z : lt x y = true → lt y z = true → lt x z = true;
  swo_equiv_trans x y z :
    equiv lt x y = true → equiv lt y z = true → equiv lt x z = true
}.

(** Lexicographic order of sequences, as a relation. *)
Inductive lex_less {A} (R : relation A) : list A → list A → Prop :=
| lex_less_nil b r : lex_less R [] (b :: r)
| lex_less_head a b l r : R a b → lex_less R (a :: l) (b :: r)
| lex_less_tail a l r : lex_less R l r → lex_less R (a :: l) (a :: r).

(** Identities ordered by the address of the key, then of the value. *)
Definition idents_less (a b : nat * nat) : Prop :=
  a.1 < b.1 ∨ (a.1 = b.1 ∧ a.2 < b.2).

(** ** The representation invariant *)

Section Invariant.
Context {K V : Type} (ltK : K → K → bool) (ltV : V → V → bool).

(** The keys of a map are pairwise not equivalent. *)
Definition keys_distinct {Key B} (lt : Key → Key → bool) (m : list (Key * B)) : Prop :=
  StronglySorted (λ a b, equiv lt a b = false) m.*1.

(** One level of [sorted_by_key]: a map with distinct keys whose
    mapped containers are not empty and fit their key. *)
Definition level_ok {Key C} (lt : Key → Key → bool)
    (entry_ok : Key → list C → Prop) (m : list (Key * list C)) : Prop :=
  keys_distinct lt m ∧ Forall (λ kb, kb.2 ≠ [] ∧ entry_ok kb.1 kb.2) m.

(** A value sub-group holds elements of its key and of its value. *)
Definition sub_group_ok (kp : key_ptr K) (vp : value_ptr V) (s : element_set K V) : Prop :=
  Forall (λ e, equiv (KeyComparer ltK) e.1 kp = true ∧
               equiv (ValueComparer ltV) e.2 vp = true) s.

(** A key group has one non-empty sub-group per value. *)
Definition key_group_ok (kp : key_ptr K) (g : value_map K V) : Prop :=
  level_ok (ValueComparer ltV) (sub_group_ok kp) g.

(** The key index has one non-empty group per key. *)
Definition key_index_ok (m : key_map K V) : Prop :=
  level_ok (KeyComparer ltK) key_group_ok m.

(** Ascending by value, ties broken by ascending key. *)
Definition value_index_sorted (c : list (element K V)) : Prop :=
  StronglySorted (λ a b, ValueKeyComparer ltK ltV b a = false) c.

Record queue_inv (q : @queue K V) : Prop := {
  inv_value_sorted : value_index_sorted (sorted_by_value q);
  inv_key_index : key_index_ok (sorted_by_key q);
  inv_same_elements :
    sorted_by_value q ≡ₚ key_index_elements (sorted_by_key q);
  inv_identities : NoDup (idents <$> sorted_by_value q)
}.

(** Every address in use was handed out before [n]. *)
Definition addresses_below (n : nat) (q : @queue K V) : Prop :=
  Forall (λ e, addr e.1 < n ∧ addr e.2 < n) (sorted_by_value q).

(** Some element of the queue carries a key equivalent to [key]. *)
Definition carries_key (q : @queue K V) (key : K) : Prop :=
  ∃ e, e ∈ sorted_by_value q ∧ equiv ltK key (obj e.1) = true.

(** Every key group of the key index stands for a key that some
    element of the value index carries: the part of the invariant
    that the lookup of [changeValue] relies on. *)
Definition key_groups_backed (q : @queue K V) : Prop :=
  ∀ kp g, (kp, g) ∈ sorted_by_key q → carries_key q (obj kp).

(** A sequence of values in which no value is smaller than an
    earlier one, and one in which none is greater. *)
Definition non_decreasing (vs : list V) : Prop :=
  StronglySorted (λ a b, ltV b a = false) vs.
Definition non_increasing (vs : list V) : Prop :=
  StronglySorted (λ a b, ltV a b = false) vs.

(** *** Draining a queue, as a client does

    [while (!q.empty()) { out.push_back(q.minValue()); q.deleteMin(); }] *)

Definition lift {St A} (o : outcome A) : M St A := λ s w, (o, s, w).

Fixpoint drainMin (fuel : nat) : M (@queue K V) (list V) :=
  match fuel with
  | O => mret []
  | S fuel' =>
      q ← get;
      if empty q then mret []
      else
        v ← lift (minValue q);
        deleteMin ltK ltV;;
        vs ← drainMin fuel';
        mret (v :: vs)
  end.

Fixpoint drainMax (fuel : nat) : M (@queue K V) (list V) :=
  match fuel with
  | O => mret []
  | S fuel' =>
      q ← get;
      if empty q then mret []
      else
        v ← lift (maxValue q);
        deleteMax ltK ltV;;
        vs ← drainMax fuel';
        mret (v :: vs)
  end.
End Invariant.


(** ** Copy construction and copy assignment *)

Section Assignment.
Context {K V : Type}.

(** [PriorityQueue(const PriorityQueue&) = default]: the two
    containers are copied, one after the other; each copy allocates
    nodes and may throw.  The copies hold the same [shared_ptr]s. *)
Definition copy_constructor {St} (source : @queue K V) : M St (@queue K V) :=
  tick;;
  let by_value := sorted_by_value source in
  tick;;
  let by_key := sorted_by_key source in
  mret (Queue by_value by_key).

(** [operator=(const PriorityQueue&)]: the temporary [tmp] is a new
    object at the end of the store, gone when the operator returns. *)
Definition operator_assign (this other : nat) : M (list (@queue K V)) unit :=
  λ st w,
    if decide (this = other) then (Ret (), st, w)
    else match st !! other with
         | Some source =>
             (tmp ← copy_constructor source;
              modify (λ st', st' ++ [tmp]);;
              swap this (length st);;
              modify (take (length st))) st w
         | None => (Abort, st, w)   (* not a reference to a queue *)
         end.
End Assignment.

(** ** What changeValue leaves alone *)

(** The elements of a value index whose key is not equivalent to
    [key], in their order. *)
Definition elements_of_other_keys {K V} (ltK : K → K → bool) (key : K)
    (c : list (element K V)) : list (element K V) :=
  List.filter (λ e, negb (equiv ltK key (obj e.1))) c.
(** ** The scenarios of the specification, evaluated *)

Local Open Scope string_scope.
Local Open Scope Z_scope.

(** C6: after insert(1,"a"), insert(2,"b"), insert(1,"c") on an empty
    queue, size() is 3, minKey() is 1, minValue() is "a", maxKey() is 1
    and maxValue() is "c"; after one deleteMin(), size() is 2 and
    minValue() is "b". *)
Theorem insert_accessors_deleteMin_scenario :
  ∃ q w q' w',
    (insert int_less string_less 1 "a";;
     insert int_less string_less 2 "b";;
     insert int_less string_less 1 "c") empty_queue fresh_world = (Ret (), q, w)
    ∧ size q = 3%nat
    ∧ minKey q = Ret 1 ∧ minValue q = Ret "a"
    ∧ maxKey q = Ret 1 ∧ maxValue q = Ret "c"
    ∧ deleteMin int_less string_less q w = (Ret (), q', w')
    ∧ size q' = 2%nat ∧ minValue q' = Ret "b".
Proof.
  eexists _, _, _, _.
  split; [vm_compute; reflexivity |].
  do 5 (split; [reflexivity |]).
  split; [vm_compute; reflexivity |].
  split; reflexivity.
Qed.

(** C4: on a queue holding exactly (1,"a") and (1,"c"), a call
    changeValue(1,"z") returns and leaves size() at 2; one element has
    key 1 and value "z", the other still has key 1 and its old value
    (here "c": the pair with the smallest value is the one replaced).
    Both insertion orders are covered. *)
Theorem changeValue_duplicate_key_scenario :
  changeValue_scenario [(1, "a"); (1, "c")]
  ∧ changeValue_scenario [(1, "c"); (1, "a")].
Proof.
  split; eexists _, _, _, _.
  all: split; [vm_compute; reflexivity |].
  all: split; [reflexivity |].
  all: split; [vm_compute; reflexivity |].
  all: split; reflexivity.
Qed.

(** C3 (the code breaks it): the receiver holds (1,"a"), the argument
    holds another (1,"a"), and during the transfer of that element
    the insertion of its key into the receiver's [sorted_by_key]
    throws.  The element is by then in the receiver's
    [sorted_by_value] and in [sorted_by_value_rollback]; the [catch]
    block erases it by key, which also removes the receiver's own
    (1,"a"): the receiver ends with size() 0.  The argument is
    untouched. *)
Theorem failed_merge_erases_receiver_element :
  ∃ a w0 b w st' w' a',
    insert_all int_less string_less [(1, "a")] empty_queue fresh_world = (Ret (), a, w0)
    ∧ insert_all int_less string_less [(1, "a")] empty_queue w0 = (Ret (), b, w)
    ∧ merge int_less string_less 0 1 [a; b] (World (next_addr w) (Some 2%nat))
      = (Throw PriorityQueueEmptyException, st', w')
    ∧ st' !! 0%nat = Some a'
    ∧ size a = 1%nat ∧ size a' = 0%nat
    ∧ st' !! 1%nat = Some b.
Proof.
  eexists _, _, _, _, _, _, _.
  split; [vm_compute; reflexivity |].
  split; [vm_compute; reflexivity |].
  split; [vm_compute; reflexivity |].
  split; [reflexivity |].
  repeat split.
Qed.

(** C1 (the code breaks it): the receiver holds (5,"x"), the argument
    holds (1,"a") and (2,"b"), and during the transfer of the first
    element the insertion into [sorted_by_value_rollback] throws.
    The element is by then in the receiver's [sorted_by_value], and
    the [catch] block, which erases what the rollback containers
    list, leaves it there: the receiver ends with two elements in the
    value index and one in the key index. *)
Theorem failed_merge_breaks_dual_index :
  ∃ a w0 b w st' w' a',
    insert_all int_less string_less [(5, "x")] empty_queue fresh_world = (Ret (), a, w0)
    ∧ insert_all int_less string_less [(1, "a"); (2, "b")] empty_queue w0 = (Ret (), b, w)
    ∧ dual_index_consistent a
    ∧ merge int_less string_less 0 1 [a; b] (World (next_addr w) (Some 1%nat))
      = (Throw PriorityQueueEmptyException, st', w')
    ∧ st' !! 0%nat = Some a'
    ∧ length (sorted_by_value a') = 2%nat
    ∧ length (key_index_elements (sorted_by_key a')) = 1%nat
    ∧ ¬ dual_index_consistent a'.
Proof.
  eexists _, _, _, _, _, _, _.
  split; [vm_compute; reflexivity |].
  split; [vm_compute; reflexivity |].
  split; [unfold dual_index_consistent; reflexivity |].
  split; [vm_compute; reflexivity |].
  split; [reflexivity |].
  split; [reflexivity |].
  split; [reflexivity |].
  intros H. apply Permutation_length in H. discriminate H.
Qed.

Local Close Scope Z_scope.
Local Close Scope string_scope.

(** ** Removal from an empty queue *)

(** C10: on an empty queue deleteMin() and deleteMax() return without
    an exception and leave the queue as it was, with size() 0, while
    the four accessors throw PriorityQueueEmptyException. *)
Theorem delete_on_empty_is_silent {K V} (ltK : K → K → bool) (ltV : V → V → bool)
    (q : @queue K V) (w : world) :
  empty q = true →
  deleteMin ltK ltV q w = (Ret (), q, w)
  ∧ deleteMax ltK ltV q w = (Ret (), q, w)
  ∧ size q = 0
  ∧ minValue q = Throw PriorityQueueEmptyException
  ∧ maxValue q = Throw PriorityQueueEmptyException
  ∧ minKey q = Throw PriorityQueueEmptyException
  ∧ maxKey q = Throw PriorityQueueEmptyException.
Proof.
  destruct q as [[|e c] m]; [| discriminate].
  intros _. repeat split.
Qed.

(** The empty queue of integer keys and string values. *)
Lemma delete_on_empty_is_silent_witness :
  deleteMin int_less string_less empty_queue fresh_world = (Ret (), empty_queue, fresh_world)
  ∧ deleteMax int_less string_less empty_queue fresh_world = (Ret (), empty_queue, fresh_world)
  ∧ size (@empty_queue Z string) = 0
  ∧ minValue (@empty_queue Z string) = Throw PriorityQueueEmptyException
  ∧ maxValue (@empty_queue Z string) = Throw PriorityQueueEmptyException
  ∧ minKey (@empty_queue Z string) = Throw PriorityQueueEmptyException
  ∧ maxKey (@empty_queue Z string) = Throw PriorityQueueEmptyException.
Proof.
  apply (delete_on_empty_is_silent int_less string_less empty_queue fresh_world).
  reflexivity.
Defined.

(** ** Comparison of queues *)

Section Comparison.
Context {K V : Type}.
Implicit Types a b : element K V.
Implicit Types l r : list (element K V).

Lemma element_eq_idents a b : element_eq a b = true ↔ idents a = idents b.
Proof.
  unfold element_eq, ptr_eq, idents.
  rewrite andb_true_iff, !Nat.eqb_eq. split; [intros [-> ->] | intros [= -> ->]]; done.
Qed.

Lemma element_less_idents a b :
  element_less a b = true ↔ idents_less (idents a) (idents b).
Proof.
  unfold element_less, ptr_less, idents_less, idents; simpl.
  rewrite orb_true_iff, andb_true_iff, negb_true_iff, Nat.ltb_ge, !Nat.ltb_lt. lia.
Qed.

Lemma idents_less_irrefl (x : nat * nat) : ¬ idents_less x x.
Proof. unfold idents_less. lia. Qed.

Lemma idents_less_asym (x y : nat * nat) : idents_less x y → ¬ idents_less y x.
Proof. unfold idents_less. lia. Qed.

Lemma idents_trichotomy (x y : nat * nat) :
  idents_less x y ∨ x = y ∨ idents_less y x.
Proof.
  destruct x as [x1 x2], y as [y1 y2]; unfold idents_less; simpl.
  destruct (Nat.lt_total x1 y1) as [?|[->|?]]; [lia | | lia].
  destruct (Nat.lt_total x2 y2) as [?|[->|?]]; [lia | by right; left | lia].
Qed.

Lemma seq_equal_idents l r : seq_equal l r = true ↔ idents <$> l = idents <$> r.
Proof.
  revert r; induction l as [|a l IH]; intros [|b r]; simpl; try done.
  rewrite andb_true_iff, element_eq_idents, IH.
  split; [intros [H1 H2]; by f_equal | intros H; injection H as H1 H2 H3; split; [unfold idents; congruence | exact H3]].
Qed.

Lemma lexicographical_compare_lex l r :
  lexicographical_compare l r = true ↔
  lex_less idents_less (idents <$> l) (idents <$> r).
Proof.
  revert r; induction l as [|a l IH]; intros [|b r]; csimpl.
  - split; [done | inversion 1].
  - split; [intros _; constructor | done].
  - split; [done | inversion 1].
  - destruct (element_less a b) eqn:Hab.
    { split; [intros _ | done]. by apply lex_less_head, element_less_idents. }
    destruct (element_less b a) eqn:Hba.
    { split; [done |]. apply element_less_idents in Hba.
      intros H; inversion H; subst.
      - by destruct (idents_less_asym _ _ Hba).
      - unfold idents_less, idents in *; simpl in *; lia. }
    assert (idents a = idents b) as Heq.
    { destruct (idents_trichotomy (idents a) (idents b)) as [H|[H|H]]; [| done |].
      - apply element_less_idents in H. congruence.
      - apply element_less_idents in H. congruence. }
    rewrite IH, Heq. split; [apply lex_less_tail |].
    intros H; inversion H; subst; [| done].
    match goal with Hlt : idents_less _ _ |- _ => by apply idents_less_irrefl in Hlt end.
Qed.

Lemma lex_less_irrefl (x : list (nat * nat)) : ¬ lex_less idents_less x x.
Proof.
  induction x as [|a x IH]; inversion 1; subst; [| done].
  by eapply idents_less_irrefl.
Qed.

Lemma lex_less_asym (x y : list (nat * nat)) :
  lex_less idents_less x y → ¬ lex_less idents_less y x.
Proof.
  induction 1 as [| a b l r Hab | a l r _ IH]; inversion 1; subst.
  - by eapply idents_less_asym.
  - by eapply idents_less_irrefl.
  - by eapply idents_less_irrefl.
  - done.
Qed.

Lemma lex_less_trichotomy (x y : list (nat * nat)) :
  lex_less idents_less x y ∨ x = y ∨ lex_less idents_less y x.
Proof.
  revert y; induction x as [|a x IH]; intros [|b y].
  - by right; left.
  - left; constructor.
  - right; right; constructor.
  - destruct (idents_trichotomy a b) as [H|[->|H]].
    + by left; apply lex_less_head.
    + destruct (IH y) as [H|[->|H]].
      * by left; apply lex_less_tail.
      * by right; left.
      * by right; right; apply lex_less_tail.
    + by right; right; apply lex_less_head.
Qed.

Lemma not_lex_less (x y : list (nat * nat)) :
  ¬ lex_less idents_less y x ↔ lex_less idents_less x y ∨ x = y.
Proof.
  split.
  - intros Hn. destruct (lex_less_trichotomy x y) as [?|[?|?]]; tauto.
  - intros [H | ->]; [by apply lex_less_asym | apply lex_less_irrefl].
Qed.
End Comparison.


(** C5, as stated, fails: two queues built by the same call
    insert(1,"a") hold the same sequence of (value, key) pairs, and
    [operator==] answers false, since it compares the pointers. *)
Lemma queue_eq_false_on_equal_contents :
  ∃ q1 w1 q2 w2,
    insert int_less string_less 1%Z "a"%string empty_queue fresh_world = (Ret (), q1, w1)
    ∧ insert int_less string_less 1%Z "a"%string empty_queue w1 = (Ret (), q2, w2)
    ∧ value_key_pairs q1 = value_key_pairs q2
    ∧ queue_eq q1 q2 = false.
Proof.
  eexists _, _, _, _.
  split; [vm_compute; reflexivity |].
  split; [vm_compute; reflexivity |].
  split; reflexivity.
Qed.

(** C5, amended: [operator==] answers true exactly when the two value
    indices hold the same sequence of identities (address of the key,
    address of the value); [operator<] is the lexicographic order of
    those sequences, identities being ordered by key address and then
    value address; [>] is [<] with the operands exchanged, [<=] is
    "less or identical", [>=] is "greater or identical", and [!=] is
    the negation of [==]. *)
Theorem queue_comparison_by_identity {K V} (lhs rhs : @queue K V) :
  (queue_eq lhs rhs = true ↔ identity_sequence lhs = identity_sequence rhs)
  ∧ queue_ne lhs rhs = negb (queue_eq lhs rhs)
  ∧ (queue_lt lhs rhs = true ↔
       lex_less idents_less (identity_sequence lhs) (identity_sequence rhs))
  ∧ (queue_gt lhs rhs = true ↔
       lex_less idents_less (identity_sequence rhs) (identity_sequence lhs))
  ∧ (queue_le lhs rhs = true ↔
       lex_less idents_less (identity_sequence lhs) (identity_sequence rhs)
       ∨ identity_sequence lhs = identity_sequence rhs)
  ∧ (queue_ge lhs rhs = true ↔
       lex_less idents_less (identity_sequence rhs) (identity_sequence lhs)
       ∨ identity_sequence lhs = identity_sequence rhs).
Proof.
  unfold queue_eq, queue_ne, queue_le, queue_ge, queue_gt, queue_lt, identity_sequence.
  split; [apply seq_equal_idents |].
  split; [done |].
  split; [apply lexicographical_compare_lex |].
  split; [apply lexicographical_compare_lex |].
  split.
  - rewrite negb_true_iff, <- not_true_iff_false, lexicographical_compare_lex.
    apply not_lex_less.
  - rewrite negb_true_iff, <- not_true_iff_false, lexicographical_compare_lex.
    rewrite not_lex_less. split; (intros [?|?]; [by left | by right]).
Qed.

(** ** Facts about the containers *)

Section OrderedContainerFacts.
Context {A Key : Type} (key_of : A → Key) (lt : Key → Key → bool).
Implicit Types (x y : A) (k : Key) (l : list A) (i : nat).

Lemma upper_bound_le k l : upper_bound key_of lt k l ≤ length l.
Proof. induction l as [|y l IH]; simpl; [lia |]. destruct (lt k (key_of y)); lia. Qed.

Lemma insert_at_length i x l : length (insert_at i x l) = S (length l).
Proof.
  unfold insert_at. rewrite length_app; simpl.
  rewrite <- (take_drop i l) at 3. rewrite length_app. lia.
Qed.

Lemma insert_at_perm i x l : insert_at i x l ≡ₚ x :: l.
Proof.
  unfold insert_at. rewrite <- Permutation_middle. by rewrite take_drop.
Qed.

Lemma delete_insert_at i x l : i ≤ length l → delete i (insert_at i x l) = l.
Proof.
  intros Hi. unfold insert_at.
  replace i with (length (take i l)) at 1 by (rewrite length_take; lia).
  by rewrite delete_middle, take_drop.
Qed.

Lemma insert_at_lookup i x l : i ≤ length l → insert_at i x l !! i = Some x.
Proof.
  intros Hi. unfold insert_at.
  replace i with (length (take i l) + 0) at 1 by (rewrite length_take; lia).
  by rewrite lookup_app_r, Nat.add_comm, Nat.add_sub by lia.
Qed.

Lemma find_pos_Some k l i :
  find_pos key_of lt k l = Some i →
  ∃ y, l !! i = Some y ∧ equiv lt k (key_of y) = true.
Proof.
  revert i; induction l as [|y l IH]; intros i; simpl; [done |].
  destruct (equiv lt k (key_of y)) eqn:Heq.
  - intros [= <-]. eauto.
  - destruct (find_pos key_of lt k l) as [j|]; [| done].
    intros [= <-]. by apply IH.
Qed.

Lemma find_pos_None k l :
  find_pos key_of lt k l = None ↔ Forall (λ y, equiv lt k (key_of y) = false) l.
Proof.
  induction l as [|y l IH]; simpl; [by split; [constructor |] |].
  rewrite Forall_cons, <- IH.
  destruct (equiv lt k (key_of y)); [by split; [| intros [? _]] |].
  destruct (find_pos key_of lt k l); split; by try intros [_ ?].
Qed.

(** The iterator that [try_emplace] returns points to an entry with
    an equivalent key; a new entry is the one given. *)
Lemma try_emplace_lookup x l i b l' :
  try_emplace key_of lt x l = (i, b, l') →
  ∃ y, l' !! i = Some y ∧ (b = true → y = x).
Proof.
  unfold try_emplace. destruct (find_pos key_of lt (key_of x) l) as [j|] eqn:Hf.
  - intros [= <- <- <-]. apply find_pos_Some in Hf as (y & ? & _). by exists y.
  - intros [= <- <- <-]. exists x. split; [| done].
    apply insert_at_lookup, upper_bound_le.
Qed.

(** Erasing the entry that [try_emplace] inserted gives the
    container back; when nothing was inserted it is unchanged. *)
Lemma try_emplace_undo x l i b l' :
  try_emplace key_of lt x l = (i, b, l') →
  (if b then delete i l' else l') = l.
Proof.
  unfold try_emplace. destruct (find_pos key_of lt (key_of x) l) as [j|].
  - by intros [= <- <- <-].
  - intros [= <- <- <-]. apply delete_insert_at, upper_bound_le.
Qed.

Lemma oc_insert_undo x l :
  delete (oc_insert key_of lt x l).1 (oc_insert key_of lt x l).2 = l.
Proof. apply delete_insert_at, upper_bound_le. Qed.
End OrderedContainerFacts.

Section SecondFacts.
Context {Key C : Type}.
Implicit Types (m : list (Key * list C)) (i : nat).

Lemma on_second_same i m : on_second (λ _, second_at i m) i m = m.
Proof.
  unfold on_second, second_at. apply list_eq; intros j.
  rewrite list_lookup_alter. case_decide as Hj; [subst j | done].
  by destruct (m !! i) as [[k b]|].
Qed.

Lemma on_second_compose {B} (f g : B → B) i (m : list (Key * B)) :
  on_second f i (on_second g i m) = on_second (f ∘ g) i m.
Proof.
  unfold on_second. rewrite list_alter_alter_eq.
  apply list_alter_ext; [| done]. by intros [k b].
Qed.

Lemma on_second_lookup {B} (f : B → B) i (m : list (Key * B)) k b :
  m !! i = Some (k, b) → on_second f i m !! i = Some (k, f b).
Proof. intros H. unfold on_second. by rewrite list_lookup_alter_eq, H. Qed.

Lemma second_at_lookup i m k b : m !! i = Some (k, b) → second_at i m = b.
Proof. intros H. unfold second_at. by rewrite H. Qed.
End SecondFacts.

(** ** Facts about the monad *)

Section MonadFacts.
Context {St : Type}.

Lemma bind_modify {A} (f : St → St) (m : M St A) s w :
  (modify f;; m) s w = m (f s) w.
Proof. done. Qed.

Lemma bind_modify_fun {A B} (f : St → St) (k : B → M St A) b s w :
  (modify f;; k b) s w = k b (f s) w.
Proof. done. Qed.

(** A [tick] that is passed leaves the state and lowers the budget. *)
Lemma bind_tick_ret {A} (m : M St A) s w a s' w' :
  (tick;; m) s w = (Ret a, s', w') →
  ∃ w1, next_addr w1 = next_addr w ∧ m s w1 = (Ret a, s', w').
Proof.
  unfold mbind, M_bind, tick. destruct w as [n [[|f]|]]; simpl; [done | |];
    intros H; (eexists; split; [| exact H]; done).
Qed.

Lemma bind_tick_no_fault {A} (m : M St A) s n :
  (tick;; m) s (World n None) = m s (World n None).
Proof. done. Qed.
End MonadFacts.

(** ** insert *)

Section InsertFacts.
Context {K V : Type} (ltK : K → K → bool) (ltV : V → V → bool).
Implicit Types (q : @queue K V) (l : insert_locals) (e : element K V).

Lemma insert_undo_by_value e (s : @queue K V * insert_locals) :
  al1 s.2 = false → al2 s.2 = false → al3 s.2 = false → al4 s.2 = false →
  (insert_undo (insert_by_value ltK ltV e s)).1 = s.1.
Proof.
  destruct s as [q l]. intros H1 H2 H3 H4. unfold insert_by_value, insert_undo; simpl in *.
  rewrite H2, H3, H4; simpl. destruct q as [c m]; unfold set_by_value; simpl.
  f_equal. apply (oc_insert_undo id (ValueKeyComparer ltK ltV)).
Qed.

Lemma insert_undo_key_group (k : key_ptr K) (s : @queue K V * insert_locals) :
  al2 s.2 = false → al3 s.2 = false → al4 s.2 = false →
  (insert_undo (insert_key_group ltK k s)).1 = (insert_undo s).1.
Proof.
  destruct s as [q l]. intros H2 H3 H4. unfold insert_key_group; cbn [fst snd] in *.
  destruct (try_emplace _ _ _ _) as [[i b] m] eqn:Hte.
  apply try_emplace_undo in Hte.
  unfold insert_undo; simpl. rewrite H2, H3, H4; simpl.
  destruct q as [c m0]; simpl in *.
  destruct b; unfold set_by_key; simpl in *; by subst m0.
Qed.

Lemma insert_undo_value_group (v : value_ptr V) (s : @queue K V * insert_locals) :
  al3 s.2 = false → al4 s.2 = false →
  (insert_undo (insert_value_group (K:=K) ltV v s)).1 = (insert_undo s).1.
Proof.
  destruct s as [q l]. intros H3 H4. unfold insert_value_group; cbn [fst snd] in *.
  destruct (try_emplace _ _ _ _) as [[i b] g] eqn:Hte.
  apply try_emplace_undo in Hte.
  unfold insert_undo; simpl. rewrite H3, H4; simpl.
  destruct q as [c m0]; simpl in *.
  assert ((if b then set_by_key (on_second (delete i) (it2 l))
                      (set_by_key (on_second (λ _, g) (it2 l)) (Queue c m0))
           else set_by_key (on_second (λ _, g) (it2 l)) (Queue c m0)) = Queue c m0)
    as ->; [| done].
  destruct b; simpl in Hte; unfold set_by_key; cbn [sorted_by_key sorted_by_value]; f_equal.
  - rewrite on_second_compose. unfold compose; cbn beta. rewrite Hte. apply on_second_same.
  - rewrite Hte. apply on_second_same.
Qed.

(** After the four steps the element is in both indices. *)
Lemma insert_steps_present e q l :
  let s := insert_in_set e
             (insert_value_group ltV e.2
                (insert_key_group ltK e.1 (insert_by_value ltK ltV e (q, l)))) in
  e ∈ sorted_by_value s.1
  ∧ e ∈ key_index_elements (sorted_by_key s.1)
  ∧ size s.1 = S (size q).
Proof.
  destruct q as [c m]. unfold insert_by_value, insert_key_group; simpl.
  destruct (try_emplace fst (KeyComparer ltK) _ m) as [[i2 b2] m2] eqn:H2.
  apply try_emplace_lookup in H2 as ([kp g0] & Hm2 & _).
  unfold insert_value_group; simpl.
  destruct (try_emplace fst (ValueComparer ltV) _ _) as [[i3 b3] g] eqn:H3.
  apply try_emplace_lookup in H3 as ([vp s0] & Hg & _).
  unfold insert_in_set; simpl.
  split; [| split].
  - rewrite insert_at_perm. by left.
  - unfold key_index_elements, value_map_elements.
    apply list_elem_of_bind. eexists. split; last first.
    { eapply list_elem_of_lookup_2. apply on_second_lookup.
      apply on_second_lookup, Hm2. }
    simpl. apply list_elem_of_bind. eexists. split; last first.
    { eapply list_elem_of_lookup_2, on_second_lookup, Hg. }
    simpl. rewrite insert_at_perm. by left.
  - unfold size; simpl. apply insert_at_length.
Qed.
End InsertFacts.

Section InsertGuarantee.
Context {K V : Type} (ltK : K → K → bool) (ltV : V → V → bool).

(** [insert] when one of the two [make_shared] calls throws: nothing
    was touched yet, and no [try] block is open. *)
Lemma insert_bad_alloc_run key value (q : @queue K V) a n :
  n < 2 →
  insert ltK ltV key value q (World a (Some n))
  = (Throw BadAlloc, q, World (a + n) None).
Proof.
  intros Hn. destruct n as [|[|n]]; [| | lia].
  - rewrite Nat.add_0_r. reflexivity.
  - rewrite Nat.add_1_r. reflexivity.
Qed.

(** The state in which [insert] ends when its [n]-th container
    operation throws. *)
Lemma insert_failing_run key value (q : @queue K V) a n :
  n < 4 →
  let k := Ptr a key in
  let v := Ptr (S a) value in
  let s0 := (q, no_locals) in
  let s1 := insert_by_value ltK ltV (k, v) s0 in
  let s2 := insert_key_group ltK k s1 in
  let s3 := insert_value_group ltV v s2 in
  insert ltK ltV key value q (World a (Some (2 + n)))
  = (Throw PriorityQueueInsertionException,
     (insert_undo (match n with 0 => s0 | 1 => s1 | 2 => s2 | _ => s3 end)).1,
     World (S (S a)) None).
Proof.
  intros Hn. destruct n as [|[|[|[|n]]]]; [reflexivity.. | lia].
Qed.

(** What the [catch] block of [insert] leaves is the queue of before
    the call. *)
Lemma insert_undo_restores key value (q : @queue K V) a n :
  n < 4 →
  let k := Ptr a key in
  let v := Ptr (S a) value in
  let s0 := (q, no_locals) in
  let s1 := insert_by_value ltK ltV (k, v) s0 in
  let s2 := insert_key_group ltK k s1 in
  let s3 := insert_value_group ltV v s2 in
  (insert_undo (match n with 0 => s0 | 1 => s1 | 2 => s2 | _ => s3 end)).1 = q.
Proof.
  intros Hn. cbn zeta. destruct n as [|[|[|n]]].
  - done.
  - by apply insert_undo_by_value.
  - rewrite insert_undo_key_group by done. by apply insert_undo_by_value.
  - rewrite insert_undo_value_group, insert_undo_key_group by done.
    by apply insert_undo_by_value.
Qed.

Lemma insert_passing_run key value (q : @queue K V) a f :
  f = None ∨ (∃ n, f = Some (6 + n)) →
  let k := Ptr a key in
  let v := Ptr (S a) value in
  insert ltK ltV key value q (World a f)
  = (Ret (),
     (insert_in_set (k, v)
        (insert_value_group ltV v
           (insert_key_group ltK k
              (insert_by_value ltK ltV (k, v) (q, no_locals))))).1,
     World (S (S a)) (match f with Some n => Some (n - 6) | None => None end)).
Proof.
  intros [-> | [n ->]]; [reflexivity |].
  simpl. rewrite Nat.sub_0_r. reflexivity.
Qed.

(** The three ways in which the fault budget can meet the six
    fallible steps of [insert]. *)
Lemma insert_fault_cases (f : option nat) :
  (∃ n, f = Some n ∧ n < 2)
  ∨ (∃ n, f = Some (2 + n) ∧ n < 4)
  ∨ (f = None ∨ ∃ n, f = Some (6 + n)).
Proof.
  destruct f as [n|]; [| by right; right; left].
  destruct (decide (n < 2)) as [H2 | H2]; [left; eauto |].
  destruct (decide (n < 6)) as [H6 | H6].
  - right; left. exists (n - 2). split; [f_equal |]; lia.
  - right; right; right. exists (n - 6). f_equal. lia.
Qed.

(** C2: [insert] gives the strong guarantee, and translates the
    failures of its [try] block only.  When one of the two
    [make_shared] calls throws, [std::bad_alloc] leaves [insert] as it
    is, the queue untouched; when one of the four container
    operations throws, the partial updates are undone, the queue is
    exactly as it was, and PriorityQueueInsertionException is thrown;
    otherwise [insert] returns with the new element in both indices
    and size() one larger. *)
Theorem insert_strong_guarantee (key : K) (value : V) (q : @queue K V) (w : world) :
  (fault_within 2 w
   ∧ ∃ w', insert ltK ltV key value q w = (Throw BadAlloc, q, w'))
  ∨ (¬ fault_within 2 w ∧ fault_within 6 w
     ∧ ∃ w', insert ltK ltV key value q w = (Throw PriorityQueueInsertionException, q, w'))
  ∨ (¬ fault_within 6 w
     ∧ ∃ q' w',
         insert ltK ltV key value q w = (Ret (), q', w')
         ∧ new_element w key value ∈ sorted_by_value q'
         ∧ new_element w key value ∈ key_index_elements (sorted_by_key q')
         ∧ size q' = S (size q)).
Proof.
  destruct w as [a f]. unfold fault_within; cbn [fault].
  destruct (insert_fault_cases f) as [(n & -> & Hn) | [(n & -> & Hn) | Hf]].
  - left. split; [exists n; split; [done | lia] |].
    eexists. by apply insert_bad_alloc_run.
  - right; left. split; [| split].
    + intros (k & [= <-] & Hk). lia.
    + exists (2 + n). split; [done | lia].
    + eexists. rewrite insert_failing_run by done. cbn zeta. f_equal. f_equal.
      by apply insert_undo_restores.
  - right; right. split.
    { intros (n & Hn & Hlt). destruct Hf as [-> | [m ->]]; [done |].
      injection Hn as <-. lia. }
    eexists _, _. rewrite insert_passing_run by done. cbn zeta.
    split; [reflexivity |].
    apply (insert_steps_present ltK ltV (Ptr a key, Ptr (S a) value) q no_locals).
Qed.
End InsertGuarantee.

(** The claim at insert(1, "a") on an empty queue when the first
    [make_shared] throws: a step of [insert] fails, and the exception
    that leaves it is [std::bad_alloc], not
    PriorityQueueInsertionException. *)
Theorem insert_bad_alloc_is_not_translated :
  insert int_less string_less 1%Z "a"%string (@empty_queue Z string) (World 0 (Some 0))
  = (Throw BadAlloc, empty_queue, World 0 None)
  ∧ ¬ ∃ q' w',
        insert int_less string_less 1%Z "a"%string (@empty_queue Z string) (World 0 (Some 0))
        = (Throw PriorityQueueInsertionException, q', w').
Proof.
  split; [reflexivity |]. intros (q' & w' & H). vm_compute in H. discriminate H.
Qed.

(** ** merge *)

Section MergeFacts.
Context {K V : Type} (ltK : K → K → bool) (ltV : V → V → bool).
Implicit Types (s : @merge_state K V) (e : element K V).

Lemma merge_transfer_ret e s w u s' w' :
  merge_transfer ltK ltV e s w = (Ret u, s', w') →
  s' = merge_transfer_effect ltK ltV e s.
Proof.
  unfold merge_transfer. intros H.
  do 7 (apply bind_tick_ret in H as (? & _ & H); rewrite bind_modify in H).
  apply bind_tick_ret in H as (? & _ & H).
  unfold modify in H. by simplify_eq.
Qed.

Lemma merge_transfer_no_fault e s n :
  merge_transfer ltK ltV e s (World n None)
  = (Ret (), merge_transfer_effect ltK ltV e s, World n None).
Proof. reflexivity. Qed.

Lemma for_each_merge_transfer_ret (l : list (element K V)) s w u s' w' :
  for_each l (merge_transfer ltK ltV) s w = (Ret u, s', w') →
  s' = foldl (λ s e, merge_transfer_effect ltK ltV e s) s l.
Proof.
  revert s w; induction l as [|e l IH]; intros s w; simpl.
  - unfold mret, M_ret. intros H. by simplify_eq.
  - unfold mbind, M_bind.
    destruct (merge_transfer ltK ltV e s w) as [[[[]|ex|] s1] w1] eqn:He; [| done..].
    apply merge_transfer_ret in He as ->. apply IH.
Qed.

Lemma for_each_merge_transfer_no_fault (l : list (element K V)) s n :
  for_each l (merge_transfer ltK ltV) s (World n None)
  = (Ret (), foldl (λ s e, merge_transfer_effect ltK ltV e s) s l, World n None).
Proof.
  revert s; induction l as [|e l IH]; intros s; simpl; [done |].
  unfold mbind, M_bind. rewrite merge_transfer_no_fault. apply IH.
Qed.

Lemma merge_transfers_sizes (l : list (element K V)) s :
  let s' := foldl (λ s e, merge_transfer_effect ltK ltV e s) s l in
  size s'.1.1 = size s.1.1 + length l ∧ s'.1.2 = s.1.2.
Proof.
  revert s; induction l as [|e l IH]; intros s; simpl; [split; [lia | done] |].
  destruct (IH (merge_transfer_effect ltK ltV e s)) as [-> ->].
  split; [| done]. unfold size; simpl. rewrite insert_at_length. lia.
Qed.

(** The first loop of the [catch] block works on the receiver's
    value index only. *)
Lemma merge_undo_by_value_frame s :
  (merge_undo_by_value ltK ltV s).2 = s.2
  ∧ (merge_undo_by_value ltK ltV s).1.2 = s.1.2
  ∧ sorted_by_key (merge_undo_by_value ltK ltV s).1.1 = sorted_by_key s.1.1.
Proof.
  unfold merge_undo_by_value. generalize (sorted_by_value_rollback s.2).
  intros l. revert s. induction l as [|elem l IH]; intros s; [done |].
  simpl. destruct (IH (on_this (set_by_value
                                  (erase_key id (ValueKeyComparer ltK ltV) elem)) s))
    as (-> & -> & ->).
  done.
Qed.

(** The three ways in which [merge] ends: the loop ran to its end; the
    loop threw before [sorted_by_key_rollback] received an entry, and
    the [catch] block runs to its [throw]; the loop threw later, and
    the second loop of the [catch] block meets undefined behaviour. *)
Lemma merge_distinct_unfold (a b : @queue K V) w :
  merge_distinct ltK ltV (a, b) w
  = match for_each (sorted_by_value b) (merge_transfer ltK ltV) (a, b, MergeLocals [] []) w with
    | (Ret _, s, w1) => (Ret (), (s.1.1, Queue [] []), w1)
    | (Throw _, s, w1) =>
        match sorted_by_key_rollback s.2 with
        | [] => (Throw PriorityQueueEmptyException, (merge_undo_by_value ltK ltV s).1, w1)
        | elem :: _ =>
            (Abort,
             (on_this (set_by_key (λ m, (try_emplace fst (KeyComparer ltK) (elem.1, []) m).2))
                (merge_undo_by_value ltK ltV s)).1,
             w1)
        end
    | (Abort, s, w1) => (Abort, s.1, w1)
    end.
Proof.
  unfold merge_distinct, with_locals, try_catch, mbind, M_bind, get; cbn [fst snd].
  destruct (for_each _ _ _ w) as [[[[]|ex|] s1] w1]; cbn [fst snd]; [done | | done].
  unfold merge_undo, mbind, M_bind, modify, get, throw; cbn [fst snd].
  destruct (merge_undo_by_value_frame s1) as (-> & _ & _).
  by destruct (sorted_by_key_rollback s1.2).
Qed.

(** A [merge] of two distinct queues that returns has run the whole
    loop and cleared the argument. *)
Lemma merge_distinct_ret (a b : @queue K V) w u a' b' w' :
  merge_distinct ltK ltV (a, b) w = (Ret u, (a', b'), w') →
  size a' = size a + size b ∧ b' = Queue [] [].
Proof.
  rewrite merge_distinct_unfold.
  destruct (for_each _ _ _ w) as [[[[]|ex|] s1] w1] eqn:Hfe;
    [| by destruct (sorted_by_key_rollback s1.2) | done].
  apply for_each_merge_transfer_ret in Hfe as ->.
  intros H. injection H as <- <- <-.
  destruct (merge_transfers_sizes (sorted_by_value b) (a, b, MergeLocals [] [])) as [H1 H2].
  simpl in H1, H2. by rewrite H1.
Qed.

Lemma merge_distinct_no_fault (a b : @queue K V) n :
  ∃ a' b', merge_distinct ltK ltV (a, b) (World n None) = (Ret (), (a', b'), World n None).
Proof.
  rewrite merge_distinct_unfold, for_each_merge_transfer_no_fault. eauto.
Qed.

(** C8: a [merge] of two distinct queues that completes without error
    leaves the receiver with the sum of the two sizes and the argument
    empty; it does complete when no container operation throws; and a
    [merge] of a queue with itself returns at once and changes
    nothing. *)
Theorem merge_postcondition :
  (∀ (st : list (@queue K V)) this other a b w st' w',
     this ≠ other → st !! this = Some a → st !! other = Some b →
     merge ltK ltV this other st w = (Ret (), st', w') →
     ∃ a' b', st' !! this = Some a' ∧ st' !! other = Some b'
              ∧ size a' = size a + size b ∧ empty b' = true)
  ∧ (∀ (st : list (@queue K V)) this other a b n,
       this ≠ other → st !! this = Some a → st !! other = Some b →
       ∃ st', merge ltK ltV this other st (World n None) = (Ret (), st', World n None))
  ∧ (∀ (st : list (@queue K V)) this w, merge ltK ltV this this st w = (Ret (), st, w)).
Proof.
  split; [| split].
  - intros st this other a b w st' w' Hne Ha Hb. unfold merge.
    rewrite decide_False, Ha, Hb by done.
    destruct (merge_distinct ltK ltV (a, b) w) as [[r [a' b']] w1] eqn:Hm; simpl.
    intros [= -> <- <-]. apply merge_distinct_ret in Hm as [Hsize ->].
    exists a', (Queue [] []). split; [| split; [| done]].
    + rewrite list_lookup_insert_ne by done.
      apply list_lookup_insert_eq. by eapply lookup_lt_Some.
    + apply list_lookup_insert_eq. rewrite length_insert. by eapply lookup_lt_Some.
  - intros st this other a b n Hne Ha Hb. unfold merge.
    rewrite decide_False, Ha, Hb by done.
    destruct (merge_distinct_no_fault a b n) as (a' & b' & ->). simpl. eauto.
  - intros st this w. unfold merge. by rewrite decide_True.
Qed.
End MergeFacts.

(** A queue of one element receives a queue of two. *)
Lemma merge_postcondition_witness :
  ∃ a' b',
    (merge int_less string_less 0 1 example_store (World 6 None)).1.2 !! 0 = Some a'
    ∧ (merge int_less string_less 0 1 example_store (World 6 None)).1.2 !! 1 = Some b'
    ∧ size a' = size example_receiver + size example_argument
    ∧ empty b' = true.
Proof.
  apply (proj1 (merge_postcondition int_less string_less)
           example_store 0 1 example_receiver example_argument (World 6 None)
           (merge int_less string_less 0 1 example_store (World 6 None)).1.2
           (World 6 None)).
  - lia.
  - reflexivity.
  - reflexivity.
  - vm_compute. reflexivity.
Defined.

(** ** Strict weak orderings *)

Section OrderFacts.
Context {A : Type} (lt : A → A → bool) `{!StrictWeakOrder lt}.
Implicit Types x y z : A.

Lemma equiv_sym x y : equiv lt x y = equiv lt y x.
Proof. unfold equiv. apply andb_comm. Qed.

Lemma equiv_refl x : equiv lt x x = true.
Proof. unfold equiv. by rewrite (swo_irrefl (lt:=lt)). Qed.

Lemma lt_asym x y : lt x y = true → lt y x = false.
Proof.
  intros Hxy. destruct (lt y x) eqn:Hyx; [| done].
  pose proof (swo_trans _ _ _ Hxy Hyx) as H. by rewrite (swo_irrefl (lt:=lt)) in H.
Qed.

Lemma lt_not_equiv x y : lt x y = true → equiv lt x y = false.
Proof. intros H. unfold equiv. by rewrite H. Qed.

(** Equivalent keys compare alike. *)
Lemma lt_equiv_l x y z : equiv lt x y = true → lt x z = lt y z.
Proof.
  intros Hxy.
  assert (∀ a b, equiv lt a b = true → lt a z = true → lt b z = true) as Hone.
  { intros a b Hab Haz. destruct (lt b z) eqn:Hbz; [done |].
    destruct (lt z b) eqn:Hzb.
    - pose proof (swo_trans _ _ _ Haz Hzb) as Hlt.
      apply lt_not_equiv in Hlt. congruence.
    - assert (equiv lt b z = true) as Hbz' by (unfold equiv; by rewrite Hbz, Hzb).
      pose proof (swo_equiv_trans _ _ _ Hab Hbz') as Heq.
      apply lt_not_equiv in Haz. congruence. }
  destruct (lt x z) eqn:Hxz, (lt y z) eqn:Hyz; try done.
  - by rewrite (Hone x y) in Hyz.
  - rewrite equiv_sym in Hxy. by rewrite (Hone y x) in Hxz.
Qed.

Lemma lt_equiv_r x y z : equiv lt x y = true → lt z x = lt z y.
Proof.
  intros Hxy.
  assert (∀ a b, equiv lt a b = true → lt z a = true → lt z b = true) as Hone.
  { intros a b Hab Hza. destruct (lt z b) eqn:Hzb; [done |].
    destruct (lt b z) eqn:Hbz.
    - pose proof (swo_trans _ _ _ Hbz Hza) as Hlt.
      apply lt_not_equiv in Hlt. rewrite equiv_sym in Hlt. congruence.
    - assert (equiv lt z b = true) as Hzb' by (unfold equiv; by rewrite Hbz, Hzb).
      rewrite equiv_sym in Hab.
      pose proof (swo_equiv_trans _ _ _ Hzb' Hab) as Heq.
      apply lt_not_equiv in Hza. congruence. }
  destruct (lt z x) eqn:Hzx, (lt z y) eqn:Hzy; try done.
  - by rewrite (Hone x y) in Hzy.
  - rewrite equiv_sym in Hxy. by rewrite (Hone y x) in Hzx.
Qed.

Lemma equiv_equiv_l x y z : equiv lt x y = true → equiv lt x z = equiv lt y z.
Proof.
  intros H. unfold equiv. by rewrite (lt_equiv_l x y z H), (lt_equiv_r x y z H).
Qed.
End OrderFacts.

Global Instance int_less_swo : StrictWeakOrder int_less.
Proof.
  unfold int_less. split; unfold equiv.
  - intros x. apply Z.ltb_irrefl.
  - intros x y z. rewrite !Z.ltb_lt. lia.
  - intros x y z. rewrite !andb_true_iff, !negb_true_iff, !Z.ltb_ge. lia.
Qed.

(** ** One level of the key index *)

Lemma StronglySorted_delete {A} (R : relation A) (l : list A) i :
  StronglySorted R l → StronglySorted R (delete i l).
Proof.
  intros H; revert i; induction H as [|x l Hl IH Hx]; intros [|i]; simpl;
    [constructor | constructor | done |].
  constructor; [apply IH | by apply Forall_delete].
Qed.

Lemma StronglySorted_insert_middle {A} (R : relation A) (l : list A) i x :
  StronglySorted R l → Forall (λ y, R x y ∧ R y x) l →
  StronglySorted R (take i l ++ x :: drop i l).
Proof.
  intros Hl Hx. rewrite <- (take_drop i l) in Hl.
  apply StronglySorted_app in Hl as (Hcross & Htake & Hdrop).
  apply StronglySorted_app_2; [| done |].
  - intros a b Ha [-> | Hb]%elem_of_cons; [| by apply Hcross].
    rewrite Forall_forall in Hx. apply Hx.
    apply elem_of_take in Ha as (j & Hj & _). by eapply list_elem_of_lookup_2.
  - constructor; [done |]. apply Forall_drop. eapply Forall_impl; [done |]. by intros ? [].
Qed.

Lemma delete_alter {A} (f : A → A) (l : list A) i : delete i (alter f i l) = delete i l.
Proof.
  revert i; induction l as [|x l IH]; intros [|i]; simpl; [done.. |]. by rewrite IH.
Qed.

Section LevelFacts.
Context {Key C E : Type} (lt : Key → Key → bool) `{!StrictWeakOrder lt}.
Context (entry_ok : Key → list C → Prop) (elems : list C → list E).
Implicit Types (m : list (Key * list C)) (k : Key) (b : list C) (i : nat).

Lemma keys_distinct_delete i m : keys_distinct lt m → keys_distinct lt (delete i m).
Proof. unfold keys_distinct. rewrite list_fmap_delete. apply StronglySorted_delete. Qed.

Lemma on_second_keys (f : list C → list C) i m : (on_second f i m).*1 = m.*1.
Proof.
  unfold on_second. revert i; induction m as [|[k b] m IH]; intros [|i]; simpl; [done.. |].
  f_equal. apply IH.
Qed.

Lemma keys_distinct_insert_at i (x : Key * list C) m :
  keys_distinct lt m → Forall (λ y, equiv lt x.1 y.1 = false) m →
  keys_distinct lt (insert_at i x m).
Proof.
  unfold keys_distinct, insert_at. intros Hm Hx.
  rewrite fmap_app, fmap_cons, fmap_take, fmap_drop.
  apply StronglySorted_insert_middle; [done |].
  apply Forall_fmap. eapply Forall_impl; [done |]. simpl.
  intros y Hy. by rewrite (equiv_sym lt y.1).
Qed.

(** [find] reaches the entry whose key is equivalent to the probe. *)
Lemma find_pos_entry m i k b k0 :
  keys_distinct lt m → m !! i = Some (k, b) → equiv lt k0 k = true →
  find_pos fst lt k0 m = Some i.
Proof.
  unfold keys_distinct. revert i; induction m as [|[k1 b1] m IH]; intros i; [done |].
  rewrite fmap_cons, StronglySorted_cons. intros [Hk1 Hm] Hi Heq.
  destruct i as [|i]; simpl in *.
  - injection Hi as -> ->. by rewrite Heq.
  - rewrite (equiv_equiv_l lt k0 k k1 Heq), (equiv_sym lt).
    rewrite Forall_forall in Hk1. rewrite (Hk1 k).
    + by rewrite (IH i).
    + apply list_elem_of_fmap. exists (k, b). split; [done |]. by eapply list_elem_of_lookup_2.
Qed.

Lemma level_elements_lookup m i k b :
  m !! i = Some (k, b) →
  level_elements elems m ≡ₚ elems b ++ level_elements elems (delete i m).
Proof.
  unfold level_elements. revert i; induction m as [|a m IH]; intros [|i]; simpl; try done.
  - by intros [= ->].
  - intros Hi. rewrite (IH i Hi). apply Permutation_app_swap_app.
Qed.

Lemma level_elements_on_second (f : list C → list C) m i k b :
  m !! i = Some (k, b) →
  level_elements elems (on_second f i m) ≡ₚ elems (f b) ++ level_elements elems (delete i m).
Proof.
  intros Hi.
  rewrite (level_elements_lookup (on_second f i m) i k (f b)) by by apply on_second_lookup.
  unfold on_second. by rewrite delete_alter.
Qed.

Lemma elem_of_level_elements (x : E) m :
  x ∈ level_elements elems m ↔ ∃ i k b, m !! i = Some (k, b) ∧ x ∈ elems b.
Proof.
  unfold level_elements. rewrite list_elem_of_bind. split.
  - intros ([k b] & Hx & (i & Hi)%list_elem_of_lookup_1). by exists i, k, b.
  - intros (i & k & b & Hi & Hx). exists (k, b). split; [done |].
    by eapply list_elem_of_lookup_2.
Qed.

Lemma on_second_insert_at (f : list C → list C) i k b m :
  i ≤ length m → on_second f i (insert_at i (k, b) m) = insert_at i (k, f b) m.
Proof.
  intros Hi. unfold on_second, insert_at.
  rewrite alter_app_r_alt by (rewrite length_take; lia).
  rewrite length_take, Nat.min_l, Nat.sub_diag by done. done.
Qed.

Lemma second_at_on_second (f : list C → list C) i m k b :
  m !! i = Some (k, b) → second_at i (on_second f i m) = f b.
Proof. intros Hi. by rewrite (second_at_lookup _ _ k (f b)) by by apply on_second_lookup. Qed.

Lemma is_nil_true (l : list C) : is_nil l = true ↔ l = [].
Proof. by destruct l. Qed.

Lemma update_pruning_ok (f : list C → list C) i m k b :
  level_ok lt entry_ok m → m !! i = Some (k, b) →
  (f b ≠ [] → entry_ok k (f b)) →
  level_ok lt entry_ok (update_pruning f i m).
Proof.
  intros [Hkeys Hall] Hi Hf. unfold update_pruning; cbn zeta.
  rewrite (second_at_on_second f i m k b Hi).
  destruct (is_nil (f b)) eqn:Hnil.
  - unfold on_second. rewrite delete_alter. split.
    + by apply keys_distinct_delete.
    + by apply Forall_delete.
  - split.
    + unfold keys_distinct. by rewrite on_second_keys.
    + apply Forall_alter; [done |]. intros [k' b'] Hi' _. simplify_eq; simpl.
      assert (f b ≠ []) by (intros Hb; rewrite Hb in Hnil; done). auto.
Qed.

Lemma update_pruning_elements (f : list C → list C) i m k b :
  elems [] = [] → m !! i = Some (k, b) →
  level_elements elems (update_pruning f i m)
  ≡ₚ elems (f b) ++ level_elements elems (delete i m).
Proof.
  intros Hnil Hi. unfold update_pruning; cbn zeta.
  rewrite (second_at_on_second f i m k b Hi).
  destruct (is_nil (f b)) eqn:Hfb.
  - apply is_nil_true in Hfb. rewrite Hfb, Hnil. unfold on_second. by rewrite delete_alter.
  - by apply (level_elements_on_second f m i k b).
Qed.

Lemma at_key_ok k (f : list C → list C) m :
  level_ok lt entry_ok m →
  (∀ k' b, equiv lt k k' = true → b = [] ∨ entry_ok k' b →
           f b ≠ [] ∧ entry_ok k' (f b)) →
  level_ok lt entry_ok (at_key lt k f m).
Proof.
  intros [Hkeys Hall] Hf. unfold at_key, try_emplace; cbn [fst snd].
  destruct (find_pos fst lt k m) as [i|] eqn:Hfind; cbn [fst snd].
  - apply find_pos_Some in Hfind as ([k' b] & Hi & Heq). split.
    + unfold keys_distinct. by rewrite on_second_keys.
    + apply Forall_alter; [done |]. intros [k'' b''] Hi' [_ Hok]. simplify_eq; simpl in *.
      apply Hf; auto.
  - rewrite on_second_insert_at by apply upper_bound_le.
    apply find_pos_None in Hfind. split.
    + by apply keys_distinct_insert_at.
    + rewrite insert_at_perm. constructor; [| done]. simpl.
      apply Hf; [apply (equiv_refl lt) | by left].
Qed.

Lemma at_key_elements k (f : list C → list C) m (e : E) :
  elems [] = [] → (∀ b, elems (f b) ≡ₚ e :: elems b) →
  level_elements elems (at_key lt k f m) ≡ₚ e :: level_elements elems m.
Proof.
  intros Hnil Hf. unfold at_key, try_emplace; cbn [fst snd].
  destruct (find_pos fst lt k m) as [i|] eqn:Hfind; cbn [fst snd].
  - apply find_pos_Some in Hfind as ([k' b] & Hi & _).
    rewrite (level_elements_on_second f m i k' b Hi), Hf.
    by rewrite (level_elements_lookup m i k' b Hi).
  - rewrite on_second_insert_at by apply upper_bound_le.
    unfold level_elements at 1. rewrite insert_at_perm, bind_cons; simpl.
    by rewrite Hf, Hnil.
Qed.
End LevelFacts.

(** ** The key index *)

Lemma at_key_not_nil {Key C} (lt : Key → Key → bool) k (f : list C → list C)
    (m : list (Key * list C)) :
  at_key lt k f m ≠ [].
Proof.
  unfold at_key, try_emplace; cbn [fst snd].
  destruct (find_pos fst lt k m) as [i|] eqn:Hfind; cbn [fst snd]; intros Hnil.
  - apply find_pos_Some in Hfind as (y & Hi & _).
    apply (f_equal length) in Hnil. unfold on_second in Hnil.
    rewrite length_alter in Hnil. apply lookup_lt_Some in Hi. simpl in Hnil. lia.
  - apply (f_equal length) in Hnil. unfold on_second in Hnil.
    rewrite length_alter, insert_at_length in Hnil. done.
Qed.

Section KeyIndexFacts.
Context {K V : Type} (ltK : K → K → bool) (ltV : V → V → bool).
Context `{!StrictWeakOrder ltK, !StrictWeakOrder ltV}.
Implicit Types (m : key_map K V) (g : value_map K V) (s : element_set K V).
Implicit Types (e : element K V).

Global Instance KeyComparer_swo : StrictWeakOrder (KeyComparer ltK).
Proof.
  split; unfold equiv, KeyComparer.
  - intros x. apply (swo_irrefl (lt:=ltK)).
  - intros x y z. apply (swo_trans (lt:=ltK)).
  - intros x y z. apply (swo_equiv_trans (lt:=ltK)).
Qed.

Global Instance ValueComparer_swo : StrictWeakOrder (ValueComparer ltV).
Proof.
  split; unfold equiv, ValueComparer.
  - intros x. apply (swo_irrefl (lt:=ltV)).
  - intros x y z. apply (swo_trans (lt:=ltV)).
  - intros x y z. apply (swo_equiv_trans (lt:=ltV)).
Qed.

Lemma level_ok_nil {Key C} (lt : Key → Key → bool) (entry_ok : Key → list C → Prop) :
  level_ok lt entry_ok [].
Proof. split; constructor. Qed.

Lemma insert_at_key_value_ok e m :
  key_index_ok ltK ltV m → key_index_ok ltK ltV (insert_at_key_value ltK ltV e m).
Proof.
  intros Hm. unfold insert_at_key_value, key_index_ok.
  apply (at_key_ok (KeyComparer ltK)); [done |].
  intros kp g Hkp Hg. split; [apply at_key_not_nil |].
  apply (at_key_ok (ValueComparer ltV)).
  { destruct Hg as [-> | Hg]; [apply level_ok_nil | done]. }
  intros vp s Hvp Hs. split.
  - intros Hnil. apply (f_equal length) in Hnil. simpl in Hnil.
    by rewrite insert_at_length in Hnil.
  - unfold sub_group_ok. simpl. rewrite insert_at_perm. constructor; [done |].
    destruct Hs as [-> | Hs]; [constructor | done].
Qed.

Lemma insert_at_key_value_elements e m :
  key_index_elements (insert_at_key_value ltK ltV e m) ≡ₚ e :: key_index_elements m.
Proof.
  unfold insert_at_key_value.
  apply (at_key_elements (KeyComparer ltK) value_map_elements); [done |].
  intros g. apply (at_key_elements (ValueComparer ltV) id); [done |].
  intros s. simpl. apply insert_at_perm.
Qed.

(** The three steps of [insert] on [sorted_by_key] amount to
    [sorted_by_key[k][v].insert(e)]. *)
Lemma insert_steps_key_index e (q : @queue K V) l :
  sorted_by_key
    (insert_in_set e
       (insert_value_group ltV e.2
          (insert_key_group ltK e.1 (insert_by_value ltK ltV e (q, l))))).1
  = insert_at_key_value ltK ltV e (sorted_by_key q).
Proof.
  destruct q as [c m]. unfold insert_in_set, insert_value_group, insert_key_group,
    insert_by_value, insert_at_key_value, at_key; cbn [fst snd sorted_by_key set_by_key
    set_by_value it2 it3].
  destruct (try_emplace fst (KeyComparer ltK) (e.1, []) m) as [[i2 b2] m2] eqn:H2.
  cbn [fst snd].
  apply try_emplace_lookup in H2 as ([kp g0] & Hm2 & _).
  rewrite (second_at_lookup i2 m2 kp g0 Hm2).
  rewrite (second_at_on_second _ i2 m2 kp g0 Hm2).
  destruct (try_emplace fst (ValueComparer ltV) (e.2, []) g0) as [[i3 b3] g] eqn:H3.
  cbn [fst snd].
  rewrite on_second_compose.
  apply list_alter_ext; [| done]. intros [kp' g'] Hi'. simplify_eq.
  unfold compose, prod_map; cbn [fst snd id]. rewrite H3; cbn [fst snd].
  f_equal.
  apply list_alter_ext; [| done]. intros [vp s] Hi3. simpl.
  by rewrite (second_at_lookup i3 g vp s Hi3).
Qed.

(** The modification block of [deleteMin] is an update with pruning
    at both levels. *)
Lemma erase_from_key_index_pruning kit vit ait m kp g :
  m !! kit = Some (kp, g) →
  erase_from_key_index kit vit ait m
  = update_pruning (update_pruning (delete ait) vit) kit m.
Proof.
  intros Hkit. unfold erase_from_key_index; cbn zeta.
  rewrite (second_at_on_second _ kit m kp g Hkit).
  assert ((if is_nil (second_at vit (on_second (delete ait) vit g))
           then on_second (delete vit) kit (on_second (on_second (delete ait) vit) kit m)
           else on_second (on_second (delete ait) vit) kit m)
          = on_second (update_pruning (delete ait) vit) kit m) as ->; [| done].
  destruct (is_nil _) eqn:Hnil.
  - rewrite on_second_compose. unfold on_second at 1 3.
    apply list_alter_ext; [| done]. intros [kp' g'] Hi'. simplify_eq. simpl.
    unfold update_pruning; cbn zeta. by rewrite Hnil.
  - unfold on_second at 1 3.
    apply list_alter_ext; [| done]. intros [kp' g'] Hi'. simplify_eq. simpl.
    unfold update_pruning; cbn zeta. by rewrite Hnil.
Qed.
End KeyIndexFacts.

(** ** The value index *)

Section SortedInsert.
Context {A : Type} (lt : A → A → bool) `{!StrictWeakOrder lt}.
Implicit Types (x y : A) (l : list A).

Lemma upper_bound_take x l y :
  y ∈ take (upper_bound id lt x l) l → lt x y = false.
Proof.
  induction l as [|z l IH]; simpl; [by intros ?%elem_of_nil |].
  destruct (lt x z) eqn:Hxz; simpl; [by intros ?%elem_of_nil |].
  intros [-> | Hy]%elem_of_cons; [done | by apply IH].
Qed.

Lemma upper_bound_drop x l y :
  StronglySorted (λ a b, lt b a = false) l →
  y ∈ drop (upper_bound id lt x l) l → lt y x = false.
Proof.
  induction 1 as [|z l Hl IH Hz]; simpl; [by intros ?%elem_of_nil |].
  destruct (lt x z) eqn:Hxz; simpl; [| done].
  intros [-> | Hy]%elem_of_cons; [by apply lt_asym |].
  rewrite Forall_forall in Hz. specialize (Hz y Hy).
  destruct (lt y x) eqn:Hyx; [| done].
  by rewrite (swo_trans _ _ _ Hyx Hxz) in Hz.
Qed.

(** [multiset::insert] keeps the container in order. *)
Lemma oc_insert_sorted x l :
  StronglySorted (λ a b, lt b a = false) l →
  StronglySorted (λ a b, lt b a = false) (oc_insert id lt x l).2.
Proof.
  intros Hl. unfold oc_insert, insert_at; simpl.
  pose proof Hl as Hl'. rewrite <- (take_drop (upper_bound id lt x l) l) in Hl'.
  apply StronglySorted_app in Hl' as (Hcross & Htake & Hdrop).
  apply StronglySorted_app_2; [| done |].
  - intros a b Ha [-> | Hb]%elem_of_cons; [exact (upper_bound_take x l a Ha) | by apply Hcross].
  - constructor; [done |]. apply Forall_forall. intros y Hy. exact (upper_bound_drop x l y Hl Hy).
Qed.
End SortedInsert.

Section ValueIndexFacts.
Context {K V : Type} (ltK : K → K → bool) (ltV : V → V → bool).
Context `{!StrictWeakOrder ltK, !StrictWeakOrder ltV}.
Implicit Types (a b c : element K V).

Lemma ValueKeyComparer_true a b :
  ValueKeyComparer ltK ltV a b = true ↔
  ltV (obj a.2) (obj b.2) = true
  ∨ (equiv ltV (obj a.2) (obj b.2) = true ∧ ltK (obj a.1) (obj b.1) = true).
Proof.
  unfold ValueKeyComparer, equiv.
  destruct (ltV (obj a.2) (obj b.2)), (ltV (obj b.2) (obj a.2)); simpl; intuition congruence.
Qed.

Lemma ValueKeyComparer_equiv a b :
  equiv (ValueKeyComparer ltK ltV) a b = true ↔
  equiv ltV (obj a.2) (obj b.2) = true ∧ equiv ltK (obj a.1) (obj b.1) = true.
Proof.
  unfold ValueKeyComparer, equiv.
  destruct (ltV (obj a.2) (obj b.2)), (ltV (obj b.2) (obj a.2)); simpl;
    rewrite ?andb_true_iff; intuition congruence.
Qed.

Global Instance ValueKeyComparer_swo : StrictWeakOrder (ValueKeyComparer ltK ltV).
Proof.
  split.
  - intros a. unfold ValueKeyComparer.
    by rewrite (swo_irrefl (lt:=ltV)), (swo_irrefl (lt:=ltK)).
  - intros a b c. rewrite !ValueKeyComparer_true.
    intros [Hab | [Hab Kab]] [Hbc | [Hbc Kbc]].
    + left. by eapply (swo_trans (lt:=ltV)).
    + left. by rewrite <- (lt_equiv_r ltV _ _ _ Hbc).
    + left. by rewrite (lt_equiv_l ltV _ _ _ Hab).
    + right. split; [by eapply (swo_equiv_trans (lt:=ltV)) | by eapply (swo_trans (lt:=ltK))].
  - intros a b c. rewrite !ValueKeyComparer_equiv. intros [H1 H2] [H3 H4]. split.
    + by eapply (swo_equiv_trans (lt:=ltV)).
    + by eapply (swo_equiv_trans (lt:=ltK)).
Qed.

(** In the order of the value index, values do not decrease. *)
Lemma ValueKeyComparer_false_value a b :
  ValueKeyComparer ltK ltV b a = false → ltV (obj b.2) (obj a.2) = false.
Proof.
  unfold ValueKeyComparer. by destruct (ltV (obj b.2) (obj a.2)).
Qed.

Lemma element_equiv_idents a b :
  equiv element_less a b = true ↔ idents a = idents b.
Proof.
  unfold equiv, element_less, ptr_less, idents; simpl.
  rewrite andb_true_iff, !negb_true_iff, !orb_false_iff, !andb_false_iff,
    !negb_false_iff, !Nat.ltb_ge, !Nat.ltb_lt.
  split; [intros ?; f_equal; lia | intros [= ? ?]; lia].
Qed.

(** [find] in a set of elements reaches the element itself when the
    identities in the set are distinct. *)
Lemma find_pos_element a (s : element_set K V) :
  a ∈ s → NoDup (idents <$> s) →
  ∃ i, find_pos id element_less a s = Some i ∧ s !! i = Some a.
Proof.
  induction s as [|b s IH]; [by intros ?%elem_of_nil |].
  rewrite fmap_cons, NoDup_cons. intros Ha [Hb Hs]. simpl.
  destruct (equiv element_less a b) eqn:Heq.
  - exists 0. split; [done |]. simpl. f_equal.
    apply elem_of_cons in Ha as [-> | Ha]; [done |].
    apply element_equiv_idents in Heq. destruct Hb. rewrite <- Heq.
    by apply list_elem_of_fmap_2.
  - apply elem_of_cons in Ha as [-> | Ha].
    + assert (equiv element_less b b = true) as Hbb by by apply element_equiv_idents.
      congruence.
    + destruct (IH Ha Hs) as (i & -> & Hi). by exists (S i).
Qed.
End ValueIndexFacts.

(** ** The invariant through insert, deleteMin and deleteMax *)

Section QueueInvariantFacts.
Context {K V : Type} (ltK : K → K → bool) (ltV : V → V → bool).
Context `{!StrictWeakOrder ltK, !StrictWeakOrder ltV}.
Implicit Types (q : @queue K V) (e : element K V) (m : key_map K V).

(** The lookups of [deleteMin] find an element of the key index, and
    its modification block removes exactly that element. *)
Lemma unlink_spec q e n :
  key_index_ok ltK ltV (sorted_by_key q) →
  e ∈ key_index_elements (sorted_by_key q) →
  NoDup (idents <$> key_index_elements (sorted_by_key q)) →
  ∃ m',
    unlink ltK ltV e q (World n None) = (Ret (), set_by_key (λ _, m') q, World n None)
    ∧ key_index_ok ltK ltV m'
    ∧ key_index_elements (sorted_by_key q) ≡ₚ e :: key_index_elements m'.
Proof.
  destruct q as [c m]; simpl. intros [Hkeys Hall] He Hnd.
  apply (elem_of_level_elements value_map_elements) in He as (kit & kp & g & Hkit & Heg).
  apply (elem_of_level_elements id) in Heg as (vit & vp & s & Hvit & Hes).
  destruct (Forall_lookup_1 _ _ _ _ Hall Hkit) as (Hgne & Hgkeys & Hgall); simpl in *.
  destruct (Forall_lookup_1 _ _ _ _ Hgall Hvit) as (Hsne & Hsok); simpl in *.
  pose proof (proj1 (Forall_forall _ _) Hsok e Hes) as [Hek Hev].
  pose proof (find_pos_entry (KeyComparer ltK) m kit kp g e.1 Hkeys Hkit Hek) as Hfind1.
  pose proof (find_pos_entry (ValueComparer ltV) g vit vp s e.2 Hgkeys Hvit Hev) as Hfind2.
  pose proof (level_elements_lookup value_map_elements m kit kp g Hkit) as Hperm1.
  pose proof (level_elements_lookup id g vit vp s Hvit) as Hperm2.
  assert (NoDup (idents <$> s)) as Hnds.
  { change (key_index_elements m) with (level_elements value_map_elements m) in Hnd.
    rewrite Hperm1 in Hnd.
    change (value_map_elements g) with (level_elements id g) in Hnd.
    rewrite Hperm2, !fmap_app in Hnd. simpl in Hnd.
    by apply NoDup_app in Hnd as [[Hnd _]%NoDup_app _]. }
  destruct (find_pos_element e s Hes Hnds) as (ait & Hfind3 & Hait).
  exists (erase_from_key_index kit vit ait m). split; [| split].
  - unfold unlink, mbind, M_bind, get, tick; simpl.
    rewrite Hfind1; simpl. rewrite (second_at_lookup kit m kp g Hkit), Hfind2; simpl.
    rewrite (second_at_lookup vit g vp s Hvit), Hfind3; simpl. done.
  - rewrite (erase_from_key_index_pruning kit vit ait m kp g Hkit).
    apply (update_pruning_ok (KeyComparer ltK) _ _ kit m kp g); [done.. |].
    intros _. apply (update_pruning_ok (ValueComparer ltV) _ _ vit g vp s); [done.. |].
    intros _. by apply Forall_delete.
  - rewrite (erase_from_key_index_pruning kit vit ait m kp g Hkit).
    change (key_index_elements ?x) with (level_elements value_map_elements x).
    rewrite Hperm1.
    rewrite (update_pruning_elements value_map_elements _ kit m kp g) by done.
    change (value_map_elements ?x) with (level_elements id x).
    rewrite Hperm2.
    rewrite (update_pruning_elements id _ vit g vp s) by done. simpl.
    by rewrite (delete_Permutation s ait e Hait) at 1.
Qed.
Lemma queue_inv_empty : queue_inv ltK ltV (@empty_queue K V).
Proof.
  split; simpl; [constructor | apply level_ok_nil | done | constructor].
Qed.

Lemma insert_preserves_inv key value q n :
  queue_inv ltK ltV q → addresses_below n q →
  ∃ q',
    insert ltK ltV key value q (World n None) = (Ret (), q', World (S (S n)) None)
    ∧ queue_inv ltK ltV q'
    ∧ addresses_below (S (S n)) q'
    ∧ sorted_by_value q' ≡ₚ (Ptr n key, Ptr (S n) value) :: sorted_by_value q.
Proof.
  intros [Hsorted Hkey Hsame Hnd] Hbelow.
  eexists. split; [by rewrite insert_passing_run by by left |].
  cbn zeta. set (e := (Ptr n key, Ptr (S n) value)).
  set (q' := (insert_in_set e _).1).
  assert (sorted_by_value q' = (oc_insert id (ValueKeyComparer ltK ltV) e (sorted_by_value q)).2)
    as Hv by done.
  assert (sorted_by_key q' = insert_at_key_value ltK ltV e (sorted_by_key q)) as Hk
    by apply (insert_steps_key_index ltK ltV e q no_locals).
  assert (sorted_by_value q' ≡ₚ e :: sorted_by_value q) as Hperm
    by (rewrite Hv; apply insert_at_perm).
  unfold addresses_below in *.
  assert (Forall (λ e, addr e.1 < S (S n) ∧ addr e.2 < S (S n)) (sorted_by_value q')) as Hbelow'.
  { rewrite Hperm. constructor; [simpl; lia |].
    eapply Forall_impl; [done |]. simpl. lia. }
  split; [| done]. split.
  - unfold value_index_sorted. rewrite Hv.
    by apply (oc_insert_sorted (ValueKeyComparer ltK ltV)).
  - rewrite Hk. by apply insert_at_key_value_ok.
  - rewrite Hk, Hperm, insert_at_key_value_elements. by constructor.
  - rewrite Hperm, fmap_cons. apply NoDup_cons. split; [| done].
    intros (e' & Heq & He')%list_elem_of_fmap.
    rewrite Forall_forall in Hbelow. specialize (Hbelow e' He').
    unfold idents in Heq; simpl in Heq. injection Heq as Heq1 Heq2. lia.
Qed.

Lemma deleteMin_preserves_inv q e c n :
  queue_inv ltK ltV q → sorted_by_value q = e :: c →
  ∃ q',
    deleteMin ltK ltV q (World n None) = (Ret (), q', World n None)
    ∧ sorted_by_value q' = c
    ∧ queue_inv ltK ltV q'.
Proof.
  intros [Hsorted Hkey Hsame Hnd] Hq.
  destruct (unlink_spec q e n Hkey) as (m' & Hrun & Hkey' & Hperm).
  { rewrite <- Hsame, Hq. by left. }
  { by rewrite <- Hsame. }
  exists (set_by_value (delete 0) (set_by_key (λ _, m') q)). split; [| split].
  - unfold deleteMin, mbind, M_bind, get, empty. rewrite Hq; simpl. by rewrite Hrun.
  - simpl. by rewrite Hq.
  - unfold value_index_sorted in *. rewrite Hq in *.
    split; simpl; rewrite ?Hq; simpl.
    + by apply StronglySorted_cons in Hsorted as [_ ?].
    + done.
    + rewrite Hperm in Hsame. by apply Permutation_cons_inv in Hsame.
    + rewrite fmap_cons in Hnd. by apply NoDup_cons in Hnd as [_ ?].
Qed.

Lemma deleteMax_preserves_inv q e c n :
  queue_inv ltK ltV q → sorted_by_value q = c ++ [e] →
  ∃ q',
    deleteMax ltK ltV q (World n None) = (Ret (), q', World n None)
    ∧ sorted_by_value q' = c
    ∧ queue_inv ltK ltV q'.
Proof.
  intros [Hsorted Hkey Hsame Hnd] Hq.
  destruct (unlink_spec q e n Hkey) as (m' & Hrun & Hkey' & Hperm).
  { rewrite <- Hsame, Hq. apply elem_of_app. right. by left. }
  { by rewrite <- Hsame. }
  assert (delete (pred (length (c ++ [e]))) (c ++ [e]) = c) as Hdel.
  { rewrite length_app; simpl. replace (pred (length c + 1)) with (length c) by lia.
    rewrite delete_middle. apply app_nil_r. }
  exists (set_by_value (delete (pred (length (sorted_by_value q)))) (set_by_key (λ _, m') q)).
  split; [| split].
  - unfold deleteMax, mbind, M_bind, get, empty. rewrite Hq.
    assert (is_nil (c ++ [e]) = false) as -> by by destruct c.
    rewrite last_snoc; simpl. by rewrite Hrun.
  - simpl. by rewrite Hq.
  - unfold value_index_sorted in *. rewrite Hq in *.
    split; simpl; rewrite ?Hq, ?Hdel.
    + by apply StronglySorted_app_1_l in Hsorted.
    + done.
    + rewrite Hperm, <- Permutation_cons_append in Hsame.
      by apply Permutation_cons_inv in Hsame.
    + rewrite fmap_app in Hnd. by apply NoDup_app in Hnd as [? _].
Qed.

(** The queue after a run of successful inserts. *)
Lemma insert_all_spec (kvs : list (K * V)) q n :
  queue_inv ltK ltV q → addresses_below n q →
  ∃ q',
    insert_all ltK ltV kvs q (World n None) = (Ret (), q', World (n + 2 * length kvs) None)
    ∧ queue_inv ltK ltV q'
    ∧ addresses_below (n + 2 * length kvs) q'
    ∧ contents <$> sorted_by_value q' ≡ₚ kvs ++ (contents <$> sorted_by_value q).
Proof.
  revert q n; induction kvs as [|[key value] kvs IH]; intros q n Hinv Hbelow.
  - exists q. simpl. rewrite Nat.add_0_r. done.
  - destruct (insert_preserves_inv key value q n Hinv Hbelow)
      as (q1 & Hrun1 & Hinv1 & Hbelow1 & Hperm1).
    destruct (IH q1 (S (S n)) Hinv1 Hbelow1) as (q2 & Hrun2 & Hinv2 & Hbelow2 & Hperm2).
    exists q2. replace (n + 2 * length ((key, value) :: kvs))
      with (S (S n) + 2 * length kvs) by (simpl; lia).
    split; [| split; [done | split; [done |]]].
    + unfold insert_all in *; simpl. unfold mbind, M_bind at 1. by rewrite Hrun1.
    + rewrite Hperm2, Hperm1, fmap_cons. simpl. by rewrite Permutation_middle.
Qed.

(** Draining by the minimum returns the values in the order of the
    value index and empties the queue. *)
Lemma drainMin_spec (c : list (element K V)) q n fuel :
  queue_inv ltK ltV q → sorted_by_value q = c → length c ≤ fuel →
  ∃ q',
    drainMin ltK ltV fuel q (World n None)
    = (Ret ((λ e, obj e.2) <$> c), q', World n None)
    ∧ empty q' = true.
Proof.
  revert q fuel; induction c as [|e c IH]; intros q fuel Hinv Hq Hfuel.
  - exists q. destruct fuel; simpl; [by unfold empty; rewrite Hq |].
    unfold mbind, M_bind, get, empty. by rewrite Hq.
  - destruct fuel as [|fuel]; [simpl in Hfuel; lia |].
    destruct (deleteMin_preserves_inv q e c n Hinv Hq) as (q1 & Hrun1 & Hq1 & Hinv1).
    destruct (IH q1 fuel Hinv1 Hq1) as (q2 & Hrun2 & Hempty); [simpl in Hfuel; lia |].
    exists q2. split; [| done]. simpl.
    unfold mbind, M_bind, get, empty, lift, minValue, empty. rewrite Hq; simpl.
    by rewrite Hrun1, Hrun2.
Qed.

(** Draining by the maximum returns them in the reverse order. *)
Lemma drainMax_spec (c : list (element K V)) q n fuel :
  queue_inv ltK ltV q → sorted_by_value q = c → length c ≤ fuel →
  ∃ q',
    drainMax ltK ltV fuel q (World n None)
    = (Ret (reverse ((λ e, obj e.2) <$> c)), q', World n None)
    ∧ empty q' = true.
Proof.
  revert q fuel; induction c as [|e c IH] using rev_ind; intros q fuel Hinv Hq Hfuel.
  - exists q. destruct fuel; simpl; [by unfold empty; rewrite Hq |].
    unfold mbind, M_bind, get, empty. by rewrite Hq.
  - rewrite length_app in Hfuel; simpl in Hfuel.
    destruct fuel as [|fuel]; [lia |].
    destruct (deleteMax_preserves_inv q e c n Hinv Hq) as (q1 & Hrun1 & Hq1 & Hinv1).
    destruct (IH q1 fuel Hinv1 Hq1) as (q2 & Hrun2 & Hempty); [lia |].
    exists q2. split; [| done]. simpl.
    unfold mbind, M_bind, get, empty, lift, maxValue, empty. rewrite Hq.
    assert (is_nil (c ++ [e]) = false) as -> by by destruct c.
    rewrite last_snoc; simpl. rewrite Hrun1, Hrun2.
    by rewrite fmap_app, reverse_app.
Qed.
End QueueInvariantFacts.

Lemma StronglySorted_fmap_impl {A B} (R : relation A) (R' : relation B) (f : A → B) l :
  (∀ a b, R a b → R' (f a) (f b)) → StronglySorted R l → StronglySorted R' (f <$> l).
Proof.
  intros HR. induction 1 as [|x l Hl IH Hx]; csimpl; constructor; [done |].
  apply Forall_fmap. eapply Forall_impl; [done |]. intros y. apply HR.
Qed.

Lemma StronglySorted_reverse {A} (R : relation A) l :
  StronglySorted R l → StronglySorted (flip R) (reverse l).
Proof.
  induction 1 as [|x l Hl IH Hx]; [constructor |].
  rewrite reverse_cons. apply StronglySorted_app_2; [| done | repeat constructor].
  intros a b Ha ->%list_elem_of_singleton. unfold flip.
  rewrite Forall_forall in Hx. apply Hx. by apply elem_of_reverse.
Qed.

Section Drain.
Context {K V : Type} (ltK : K → K → bool) (ltV : V → V → bool).

Lemma queue_of_inv `{!StrictWeakOrder ltK, !StrictWeakOrder ltV} a (kvs : list (K * V)) :
  queue_inv ltK ltV (queue_of ltK ltV a kvs).
Proof.
  destruct (insert_all_spec ltK ltV kvs empty_queue a) as (q & Hrun & Hinv & _).
  - apply queue_inv_empty.
  - constructor.
  - unfold queue_of. by rewrite Hrun.
Qed.

(** C7: after any sequence of inserts, none of which fails, draining
    the queue with minValue() and deleteMin() empties it and yields
    the inserted values in non-decreasing order; draining it with
    maxValue() and deleteMax() yields them in non-increasing order.
    The drain loop needs no more iterations than size(). *)
Theorem drain_order `{!StrictWeakOrder ltK, !StrictWeakOrder ltV}
    (kvs : list (K * V)) (a : nat) :
  ∃ q w,
    insert_all ltK ltV kvs empty_queue (World a None) = (Ret (), q, w)
    ∧ size q = length kvs
    ∧ (∀ fuel, size q ≤ fuel →
         ∃ q' vs, drainMin ltK ltV fuel q w = (Ret vs, q', w)
                  ∧ empty q' = true
                  ∧ vs ≡ₚ kvs.*2
                  ∧ non_decreasing ltV vs)
    ∧ (∀ fuel, size q ≤ fuel →
         ∃ q' vs, drainMax ltK ltV fuel q w = (Ret vs, q', w)
                  ∧ empty q' = true
                  ∧ vs ≡ₚ kvs.*2
                  ∧ non_increasing ltV vs).
Proof.
  destruct (insert_all_spec ltK ltV kvs empty_queue a) as (q & Hrun & Hinv & _ & Hperm).
  { apply queue_inv_empty. }
  { constructor. }
  simpl in Hperm. rewrite app_nil_r in Hperm.
  assert ((λ e : element K V, obj e.2) <$> sorted_by_value q ≡ₚ kvs.*2) as Hvalues.
  { rewrite <- Hperm, <- list_fmap_compose. done. }
  assert (non_decreasing ltV ((λ e : element K V, obj e.2) <$> sorted_by_value q)) as Hsorted.
  { eapply StronglySorted_fmap_impl; [| apply (inv_value_sorted _ _ _ Hinv)].
    intros x y. apply ValueKeyComparer_false_value. }
  exists q, (World (a + 2 * length kvs) None). split; [done |]. split; [| split].
  - unfold size. by rewrite <- (length_fmap contents), Hperm.
  - intros fuel Hfuel.
    destruct (drainMin_spec ltK ltV (sorted_by_value q) q (a + 2 * length kvs) fuel)
      as (q' & Hdrain & Hempty); [done.. |].
    by exists q', ((λ e, obj e.2) <$> sorted_by_value q).
  - intros fuel Hfuel.
    destruct (drainMax_spec ltK ltV (sorted_by_value q) q (a + 2 * length kvs) fuel)
      as (q' & Hdrain & Hempty); [done.. |].
    exists q', (reverse ((λ e, obj e.2) <$> sorted_by_value q)).
    split; [done |]. split; [done |]. split.
    + by rewrite reverse_Permutation.
    + by apply StronglySorted_reverse in Hsorted.
Qed.
End Drain.

(** Three inserts with integer keys and values. *)
Lemma drain_order_witness :
  ∃ q w,
    insert_all int_less int_less [(1, 30); (2, 10); (1, 20)]%Z empty_queue (World 0 None)
    = (Ret (), q, w)
    ∧ size q = 3
    ∧ (∀ fuel, size q ≤ fuel →
         ∃ q' vs, drainMin int_less int_less fuel q w = (Ret vs, q', w)
                  ∧ empty q' = true
                  ∧ vs ≡ₚ [30; 10; 20]%Z
                  ∧ non_decreasing int_less vs)
    ∧ (∀ fuel, size q ≤ fuel →
         ∃ q' vs, drainMax int_less int_less fuel q w = (Ret vs, q', w)
                  ∧ empty q' = true
                  ∧ vs ≡ₚ [30; 10; 20]%Z
                  ∧ non_increasing int_less vs).
Proof.
  exact (drain_order int_less int_less [(1, 30); (2, 10); (1, 20)]%Z 0).
Defined.

(** ** changeValue on a key that the queue does not hold *)

Section ChangeValueAbsent.
Context {K V : Type} (ltK : K → K → bool) (ltV : V → V → bool).

(** The invariant gives every key group an element of its key. *)
Lemma queue_inv_key_groups_backed `{!StrictWeakOrder ltK} (q : @queue K V) :
  queue_inv ltK ltV q → key_groups_backed ltK q.
Proof.
  intros [_ [_ Hall] Hsame _] kp g Hin.
  rewrite Forall_forall in Hall. destruct (Hall _ Hin) as (Hg & _ & Hgall); simpl in *.
  destruct g as [|[vp s] g]; [done |].
  apply Forall_cons in Hgall as [[Hs Hsok] _]; simpl in *.
  destruct s as [|e s]; [done |].
  apply Forall_cons in Hsok as [[He _] _].
  exists e. split.
  - rewrite Hsame. unfold key_index_elements, value_map_elements.
    apply list_elem_of_bind. exists (kp, (vp, e :: s) :: g). split; [| done].
    simpl. by left.
  - change (equiv ltK (obj e.1) (obj kp) = true) in He. by rewrite (equiv_sym ltK).
Qed.

Lemma absent_key_not_found `{!StrictWeakOrder ltK} (q : @queue K V) key a :
  key_groups_backed ltK q → ¬ carries_key ltK q key →
  find_pos fst (KeyComparer ltK) (Ptr a key) (sorted_by_key q) = None.
Proof.
  intros Hbacked Habsent. apply find_pos_None, Forall_forall. intros [kp g] Hin. simpl.
  destruct (equiv (KeyComparer ltK) (Ptr a key) kp) eqn:Heq; [| done].
  destruct (Hbacked kp g Hin) as (e & He & Hek).
  destruct Habsent. exists e. split; [done |].
  change (equiv ltK key (obj kp) = true) in Heq.
  by rewrite (equiv_equiv_l ltK _ _ _ Heq).
Qed.

(** X16: on a queue whose key groups all stand for a key of the value
    index (as the representation invariant has it), changeValue(key, v)
    with a key that no element carries throws
    PriorityQueueNotFoundException and leaves the queue as it was.
    When [make_shared] or the comparator of the lookup throws, that
    exception leaves the method as it is, and the queue is unchanged
    too. *)
Theorem changeValue_absent_key_not_found `{!StrictWeakOrder ltK}
    (q : @queue K V) (key : K) (value : V) (w : world) :
  key_groups_backed ltK q → ¬ carries_key ltK q key →
  ∃ w',
    changeValue ltK ltV key value q w
    = (Throw (match fault w with
              | Some 0 => BadAlloc
              | Some 1 => ContainerFailure
              | _ => PriorityQueueNotFoundException
              end), q, w').
Proof.
  intros Hbacked Habsent. destruct w as [a f].
  pose proof (absent_key_not_found q key a Hbacked Habsent) as Hfind.
  unfold changeValue, mbind, M_bind, make_shared, get, tick; simpl.
  destruct f as [[|[|f]]|]; simpl; [by eexists | by eexists | |];
    rewrite Hfind; by eexists.
Qed.
End ChangeValueAbsent.

(** A queue with the keys 1 and 3, asked for the key 2. *)
Lemma changeValue_absent_key_not_found_witness :
  ∃ w',
    changeValue int_less int_less 2%Z 50%Z
      (queue_of int_less int_less 0 [(1, 30); (3, 10)]%Z) (World 4 None)
    = (Throw (match fault (World 4 None) with
              | Some 0 => BadAlloc
              | Some 1 => ContainerFailure
              | _ => PriorityQueueNotFoundException
              end),
       queue_of int_less int_less 0 [(1, 30); (3, 10)]%Z, w').
Proof.
  apply (changeValue_absent_key_not_found int_less int_less).
  - apply (queue_inv_key_groups_backed int_less int_less).
    exact (queue_of_inv int_less int_less 0 [(1, 30); (3, 10)]%Z).
  - intros (e & He & Heq). vm_compute in He.
    apply elem_of_cons in He as [-> | He]; [discriminate Heq |].
    apply elem_of_cons in He as [-> | He]; [discriminate Heq |].
    by apply elem_of_nil in He.
Defined.

(** C9 (the code breaks it): the receiver holds (5,"x"), the argument
    holds (1,"a") and (2,"b"), and during the transfer of (1,"a") the
    call [sorted_by_key[k].insert(v, elem_set)] throws.  The [catch]
    block takes the element out of the receiver's [sorted_by_value]
    but leaves the key group of 1, still without a value, in its
    [sorted_by_key].  The receiver then holds (5,"x") only, and
    changeValue(1, "z") finds that group and stops at
    [assert(!es_it->second.empty())] instead of throwing
    PriorityQueueNotFoundException. *)
Theorem changeValue_absent_key_after_failed_merge :
  ∃ a w0 b w st' w' a',
    insert_all int_less string_less [(5%Z, "x"%string)] empty_queue fresh_world
      = (Ret (), a, w0)
    ∧ insert_all int_less string_less [(1%Z, "a"%string); (2%Z, "b"%string)] empty_queue w0
      = (Ret (), b, w)
    ∧ merge int_less string_less 0 1 [a; b] (World (next_addr w) (Some 3))
      = (Throw PriorityQueueEmptyException, st', w')
    ∧ st' !! 0 = Some a'
    ∧ contents <$> sorted_by_value a' = [(5%Z, "x"%string)]
    ∧ ¬ carries_key int_less a' 1%Z
    ∧ (changeValue int_less string_less 1%Z "z"%string a' w').1.1 = Abort.
Proof.
  eexists _, _, _, _, _, _, _.
  split; [vm_compute; reflexivity |].
  split; [vm_compute; reflexivity |].
  split; [vm_compute; reflexivity |].
  split; [reflexivity |].
  split; [reflexivity |].
  split; [| vm_compute; reflexivity].
  intros (e & He & Heq).
  apply elem_of_cons in He as [-> | He]; [discriminate Heq |].
  by apply elem_of_nil in He.
Qed.

(** ** The invariant and the consistency of the two indices *)

Lemma queue_inv_dual_index_consistent {K V} (ltK : K → K → bool) (ltV : V → V → bool)
    (q : @queue K V) :
  queue_inv ltK ltV q → dual_index_consistent q.
Proof. intros [_ _ Hsame _]. unfold dual_index_consistent. by rewrite Hsame. Qed.

(** * Further properties of the class *)

(** ** swap *)

(** X1: [swap] exchanges the contents of the two queues and touches
    no other object; a second [swap] of the same two queues gives the
    store back; a queue swapped with itself is unchanged. *)
Theorem swap_exchanges_and_undoes {K V} (st : list (@queue K V)) this other a b w :
  st !! this = Some a → st !! other = Some b →
  ∃ st',
    swap this other st w = (Ret (), st', w)
    ∧ st' !! this = Some b
    ∧ st' !! other = Some a
    ∧ (∀ k, k ≠ this → k ≠ other → st' !! k = st !! k)
    ∧ (this = other → st' = st)
    ∧ swap this other st' w = (Ret (), st, w).
Proof.
  intros Ha Hb. unfold swap. destruct (decide (this = other)) as [-> | Hne].
  - exists st. simplify_eq. by repeat split.
  - rewrite Ha, Hb. pose proof (lookup_lt_Some _ _ _ Ha) as Hlta.
    pose proof (lookup_lt_Some _ _ _ Hb) as Hltb.
    assert (<[other:=a]> (<[this:=b]> st) !! this = Some b) as Hthis.
    { rewrite list_lookup_insert_ne by done. by apply list_lookup_insert_eq. }
    assert (<[other:=a]> (<[this:=b]> st) !! other = Some a) as Hother.
    { apply list_lookup_insert_eq. by rewrite length_insert. }
    eexists. split; [done |]. split; [done |]. split; [done |].
    split; [| split; [done |]].
    + intros k Hk1 Hk2. by rewrite !list_lookup_insert_ne by done.
    + rewrite Hthis, Hother. f_equal. f_equal.
      apply list_eq. intros k.
      destruct (decide (k = other)) as [-> | Hk2].
      { rewrite list_lookup_insert_eq; [done |]. by rewrite !length_insert. }
      rewrite list_lookup_insert_ne by done.
      destruct (decide (k = this)) as [-> | Hk1].
      { rewrite list_lookup_insert_eq; [done |]. by rewrite !length_insert. }
      by rewrite !list_lookup_insert_ne by done.
Qed.

(** A queue of one element and a queue of two. *)
Lemma swap_exchanges_and_undoes_witness :
  ∃ st',
    swap 0 1 example_store fresh_world = (Ret (), st', fresh_world)
    ∧ st' !! 0 = Some example_argument
    ∧ st' !! 1 = Some example_receiver
    ∧ (∀ k, k ≠ 0 → k ≠ 1 → st' !! k = example_store !! k)
    ∧ (0 = 1 → st' = example_store)
    ∧ swap 0 1 st' fresh_world = (Ret (), example_store, fresh_world).
Proof.
  apply (swap_exchanges_and_undoes example_store 0 1 example_receiver example_argument
           fresh_world); reflexivity.
Defined.

(** ** Comparison operators *)

Section ComparisonOrder.
Context {K V : Type}.
Implicit Types (p q r : @queue K V).

Lemma idents_less_trans (x y z : nat * nat) :
  idents_less x y → idents_less y z → idents_less x z.
Proof. unfold idents_less. lia. Qed.

Lemma lex_less_trans (x y z : list (nat * nat)) :
  lex_less idents_less x y → lex_less idents_less y z → lex_less idents_less x z.
Proof.
  intros Hxy; revert z; induction Hxy as [b r | a b l r Hab | a l r Hlr IH];
    intros z Hyz; inversion Hyz; subst.
  - constructor.
  - constructor.
  - apply lex_less_head. by eapply idents_less_trans.
  - by apply lex_less_head.
  - by apply lex_less_head.
  - apply lex_less_tail. by apply IH.
Qed.

(** X2: [operator==] is an equivalence on queues, [operator<] is
    irreflexive and transitive, and of [p < q], [p == q] and [q < p]
    exactly one holds: the operators order queues totally (by the
    identities of their elements). *)
Theorem queue_operators_total_order p q r :
  queue_eq p p = true
  ∧ queue_eq p q = queue_eq q p
  ∧ (queue_eq p q = true → queue_eq q r = true → queue_eq p r = true)
  ∧ queue_lt p p = false
  ∧ (queue_lt p q = true → queue_lt q r = true → queue_lt p r = true)
  ∧ (queue_lt p q = true ∨ queue_eq p q = true ∨ queue_lt q p = true)
  ∧ (queue_lt p q = true → queue_eq p q = false ∧ queue_lt q p = false).
Proof.
  assert (∀ a b : @queue K V, queue_eq a b = true ↔ identity_sequence a = identity_sequence b)
    as Heq by (intros; apply seq_equal_idents).
  assert (∀ a b : @queue K V, queue_lt a b = true ↔
            lex_less idents_less (identity_sequence a) (identity_sequence b))
    as Hlt by (intros; apply lexicographical_compare_lex).
  split; [by apply Heq |]. split; [| split; [| split; [| split; [| split]]]].
  - apply eq_true_iff_eq. rewrite !Heq. by split.
  - rewrite !Heq. congruence.
  - apply not_true_iff_false. rewrite Hlt. apply lex_less_irrefl.
  - rewrite !Hlt. apply lex_less_trans.
  - rewrite !Hlt, Heq. apply lex_less_trichotomy.
  - rewrite <- !not_true_iff_false, !Hlt, Heq. intros H. split.
    + intros Hid. rewrite Hid in H. by apply lex_less_irrefl in H.
    + by apply lex_less_asym.
Qed.
End ComparisonOrder.

(** ** Copy assignment *)

Section AssignmentFacts.
Context {K V : Type}.
Implicit Types (st : list (@queue K V)) (a b : @queue K V).

Lemma queue_eta a : Queue (sorted_by_value a) (sorted_by_key a) = a.
Proof. by destruct a. Qed.

(** The store after the temporary took the old contents of [this]
    and was destroyed. *)
Lemma assign_swap_temporary st this a tmp w :
  st !! this = Some a →
  (swap this (length st);; modify (take (length st))) (st ++ [tmp]) w
  = (Ret (), <[this := tmp]> st, w).
Proof.
  intros Ha. pose proof (lookup_lt_Some _ _ _ Ha) as Hlt.
  unfold mbind, M_bind, swap, modify.
  rewrite decide_False by lia.
  rewrite lookup_app_l, Ha by done.
  rewrite lookup_app_r, Nat.sub_diag by done. simpl.
  f_equal. f_equal.
  rewrite insert_app_l by done.
  rewrite insert_app_r_alt by (rewrite length_insert; lia).
  rewrite take_app_length' by by rewrite length_insert.
  done.
Qed.

Lemma assign_body_run st this (source : @queue K V) n f :
  (tmp ← copy_constructor source;
   modify (λ st', st' ++ [tmp]);;
   swap this (length st);;
   modify (take (length st))) st (World n f)
  = match f with
    | Some 0 | Some 1 => (Throw ContainerFailure, st, World n None)
    | Some (S (S k)) =>
        (swap this (length st);; modify (take (length st)))
          (st ++ [Queue (sorted_by_value source) (sorted_by_key source)]) (World n (Some k))
    | None =>
        (swap this (length st);; modify (take (length st)))
          (st ++ [Queue (sorted_by_value source) (sorted_by_key source)]) (World n None)
    end.
Proof. destruct f as [[|[|k]]|]; reflexivity. Qed.

(** X3: copy assignment gives the strong guarantee.  Either it
    returns, [this] then holds the containers of [other] (the same
    shared elements, so that [this == other] is true) and no other
    object changed; or one of the two container copies threw and the
    store is exactly as before.  Assigning a queue to itself changes
    nothing. *)
Theorem copy_assignment_strong_guarantee st this other a b w :
  st !! this = Some a → st !! other = Some b →
  (¬ (this ≠ other ∧ fault_within 2 w)
   ∧ ∃ w', operator_assign this other st w = (Ret (), <[this := b]> st, w')
           ∧ <[this := b]> st !! this = Some b
           ∧ <[this := b]> st !! other = Some b
           ∧ queue_eq b b = true)
  ∨ (this ≠ other ∧ fault_within 2 w
     ∧ ∃ w', operator_assign this other st w = (Throw ContainerFailure, st, w')).
Proof.
  intros Ha Hb. pose proof (lookup_lt_Some _ _ _ Ha) as Hlt.
  assert (<[this := b]> st !! this = Some b) as Hthis by by apply list_lookup_insert_eq.
  assert (queue_eq b b = true) as Heq by by apply seq_equal_idents.
  unfold operator_assign. destruct (decide (this = other)) as [-> | Hne].
  - left. simplify_eq. split; [by intros [? _] |].
    exists w. by rewrite list_insert_id.
  - assert (<[this := b]> st !! other = Some b) as Hother
      by by rewrite list_lookup_insert_ne.
    rewrite Hb. destruct w as [n f]. rewrite assign_body_run, queue_eta.
    destruct f as [[|[|f]]|].
    + right. split; [done |]. split; [exists 0; simpl; split; [done | lia] |]. by eexists.
    + right. split; [done |]. split; [exists 1; simpl; split; [done | lia] |]. by eexists.
    + left. split; [intros [_ (k & [= <-] & ?)]; lia |].
      rewrite (assign_swap_temporary st this a b _ Ha). by eexists.
    + left. split; [by intros [_ (k & ? & ?)] |].
      rewrite (assign_swap_temporary st this a b _ Ha). by eexists.
Qed.
End AssignmentFacts.

(** A queue of two elements is assigned to a queue of one. *)
Lemma copy_assignment_strong_guarantee_witness :
  (¬ (0 ≠ 1 ∧ fault_within 2 fresh_world)
   ∧ ∃ w', operator_assign 0 1 example_store fresh_world
           = (Ret (), <[0 := example_argument]> example_store, w')
           ∧ <[0 := example_argument]> example_store !! 0 = Some example_argument
           ∧ <[0 := example_argument]> example_store !! 1 = Some example_argument
           ∧ queue_eq example_argument example_argument = true)
  ∨ (0 ≠ 1 ∧ fault_within 2 fresh_world
     ∧ ∃ w', operator_assign 0 1 example_store fresh_world
             = (Throw ContainerFailure, example_store, w')).
Proof.
  apply (copy_assignment_strong_guarantee example_store 0 1 example_receiver
           example_argument fresh_world); reflexivity.
Defined.

(** ** What a throwing deleteMin, deleteMax or merge leaves behind *)

Section ThrowingRemoval.
Context {K V : Type} (ltK : K → K → bool) (ltV : V → V → bool).
Implicit Types (q : @queue K V) (e : element K V).

Lemma unlink_throw e q w ex q' w' :
  unlink ltK ltV e q w = (Throw ex, q', w') → q' = q ∧ ex = ContainerFailure.
Proof.
  unfold unlink, mbind, M_bind, get, tick, assert_some, modify, mret, M_ret, abort.
  destruct w as [n [[|[|f]]|]]; simpl.
  - intros H. by simplify_eq.
  - destruct (find_pos fst _ _ _) as [kit|]; simpl; intros H; by simplify_eq.
  - destruct (find_pos fst _ _ _) as [kit|]; simpl; [| intros H; by simplify_eq].
    destruct (find_pos fst _ _ _) as [vit|]; simpl; [| intros H; by simplify_eq].
    destruct (find_pos id _ _ _) as [ait|]; simpl; intros H; by simplify_eq.
  - destruct (find_pos fst _ _ _) as [kit|]; simpl; [| intros H; by simplify_eq].
    destruct (find_pos fst _ _ _) as [vit|]; simpl; [| intros H; by simplify_eq].
    destruct (find_pos id _ _ _) as [ait|]; simpl; intros H; by simplify_eq.
Qed.

(** X4: an exception leaves [deleteMin] or [deleteMax] only from one
    of the two lookups in [sorted_by_key], before anything is
    modified: it is the comparator's exception, and the queue is
    exactly as before the call. *)
Theorem delete_extreme_throws_unchanged q w :
  (∀ ex q' w', deleteMin ltK ltV q w = (Throw ex, q', w') →
               q' = q ∧ ex = ContainerFailure ∧ fault_within 2 w)
  ∧ (∀ ex q' w', deleteMax ltK ltV q w = (Throw ex, q', w') →
                 q' = q ∧ ex = ContainerFailure ∧ fault_within 2 w).
Proof.
  assert (∀ e ex q' w', unlink ltK ltV e q w = (Throw ex, q', w') → fault_within 2 w)
    as Hfault.
  { intros e ex q' w'.
    unfold unlink, mbind, M_bind, get, tick, assert_some, modify, mret, M_ret, abort.
    destruct w as [n [[|[|f]]|]]; simpl.
    - intros _. exists 0. split; [done | lia].
    - intros _. exists 1. split; [done | lia].
    - destruct (find_pos fst _ _ _) as [kit|]; simpl; [| intros H; by simplify_eq].
      destruct (find_pos fst _ _ _) as [vit|]; simpl; [| intros H; by simplify_eq].
      destruct (find_pos id _ _ _) as [ait|]; simpl; intros H; by simplify_eq.
    - destruct (find_pos fst _ _ _) as [kit|]; simpl; [| intros H; by simplify_eq].
      destruct (find_pos fst _ _ _) as [vit|]; simpl; [| intros H; by simplify_eq].
      destruct (find_pos id _ _ _) as [ait|]; simpl; intros H; by simplify_eq. }
  split; intros ex q' w'.
  - unfold deleteMin, mbind at 1 2, M_bind at 1 2, get.
    destruct (empty q); [intros H; by simplify_eq |].
    unfold assert_some. destruct (head _) as [e|]; [| intros H; by simplify_eq].
    unfold mret, M_ret, mbind, M_bind.
    destruct (unlink ltK ltV e q w) as [[[[]|ex1|] q1] w1] eqn:Hun; simpl;
      intros H; simplify_eq.
    destruct (unlink_throw _ _ _ _ _ _ Hun) as [-> ->]. by eauto.
  - unfold deleteMax, mbind at 1 2, M_bind at 1 2, get.
    destruct (empty q); [intros H; by simplify_eq |].
    unfold assert_some. destruct (last _) as [e|]; [| intros H; by simplify_eq].
    unfold mret, M_ret, mbind, M_bind.
    destruct (unlink ltK ltV e q w) as [[[[]|ex1|] q1] w1] eqn:Hun; simpl;
      intros H; simplify_eq.
    destruct (unlink_throw _ _ _ _ _ _ Hun) as [-> ->]. by eauto.
Qed.
End ThrowingRemoval.

(** The comparator throws at the second lookup of [deleteMin], at the
    first of [deleteMax]. *)
Lemma delete_extreme_throws_unchanged_witness :
  (example_argument = example_argument
   ∧ ContainerFailure = ContainerFailure ∧ fault_within 2 (World 6 (Some 1)))
  ∧ (example_argument = example_argument
     ∧ ContainerFailure = ContainerFailure ∧ fault_within 2 (World 6 (Some 0))).
Proof.
  split.
  - apply (proj1 (delete_extreme_throws_unchanged int_less string_less example_argument
                    (World 6 (Some 1))) ContainerFailure example_argument (World 6 None)).
    vm_compute. reflexivity.
  - apply (proj2 (delete_extreme_throws_unchanged int_less string_less example_argument
                    (World 6 (Some 0))) ContainerFailure example_argument (World 6 None)).
    vm_compute. reflexivity.
Defined.

Section ThrowingMerge.
Context {K V : Type} (ltK : K → K → bool) (ltV : V → V → bool).
Implicit Types (s : @merge_state K V) (e : element K V).










End ThrowingMerge.


(** ** The accessors return the extremes *)

Section Extremes.
Context {K V : Type} (ltK : K → K → bool) (ltV : V → V → bool).
Context `{!StrictWeakOrder ltK, !StrictWeakOrder ltV}.
Implicit Types (q : @queue K V) (e : element K V).

Lemma ValueKeyComparer_false a b :
  ValueKeyComparer ltK ltV a b = false ↔
  ltV (obj a.2) (obj b.2) = false
  ∧ (ltV (obj b.2) (obj a.2) = false → ltK (obj a.1) (obj b.1) = false).
Proof.
  unfold ValueKeyComparer.
  destruct (ltV (obj a.2) (obj b.2)), (ltV (obj b.2) (obj a.2)); intuition congruence.
Qed.

(** X6: on a non-empty queue whose value index is in order, minValue()
    and minKey() return the value and the key of one element, no
    stored value is smaller than that value, and among the elements
    with a value not greater no key is smaller than that key;
    maxValue() and maxKey() are the mirror image. *)
Theorem accessors_return_extremes q :
  value_index_sorted ltK ltV (sorted_by_value q) → empty q = false →
  ∃ lo hi,
    lo ∈ sorted_by_value q ∧ hi ∈ sorted_by_value q
    ∧ minValue q = Ret (obj lo.2) ∧ minKey q = Ret (obj lo.1)
    ∧ maxValue q = Ret (obj hi.2) ∧ maxKey q = Ret (obj hi.1)
    ∧ ∀ e, e ∈ sorted_by_value q →
        ltV (obj e.2) (obj lo.2) = false
        ∧ (ltV (obj lo.2) (obj e.2) = false → ltK (obj e.1) (obj lo.1) = false)
        ∧ ltV (obj hi.2) (obj e.2) = false
        ∧ (ltV (obj e.2) (obj hi.2) = false → ltK (obj hi.1) (obj e.1) = false).
Proof.
  unfold value_index_sorted, minValue, minKey, maxValue, maxKey, empty.
  intros Hsorted Hne. rewrite Hne.
  destruct (sorted_by_value q) as [|lo c] eqn:Hq; [done |].
  destruct (last (lo :: c)) as [hi|] eqn:Hlast; [| by apply last_None in Hlast].
  apply last_Some in Hlast as [c' Hc'].
  exists lo, hi. split; [by left |]. split; [rewrite Hc'; apply elem_of_app; right; by left |].
  do 4 (split; [done |]).
  intros e He.
  assert (ValueKeyComparer ltK ltV e lo = false) as Hlo.
  { apply StronglySorted_cons in Hsorted as [Hall _].
    apply elem_of_cons in He as [-> | He]; [apply (swo_irrefl (lt:=ValueKeyComparer ltK ltV)) |].
    rewrite Forall_forall in Hall. by apply Hall. }
  assert (ValueKeyComparer ltK ltV hi e = false) as Hhi.
  { rewrite Hc' in Hsorted, He.
    apply elem_of_app in He as [He | ->%list_elem_of_singleton];
      [| apply (swo_irrefl (lt:=ValueKeyComparer ltK ltV))].
    eapply StronglySorted_app_1_elem_of in Hsorted; [done.. |]. by left. }
  apply ValueKeyComparer_false in Hlo as [? ?], Hhi as [? ?]. auto.
Qed.
End Extremes.

(** Three elements with integer keys and values. *)
Lemma accessors_return_extremes_witness :
  ∃ lo hi,
    lo ∈ sorted_by_value (queue_of int_less int_less 0 [(1, 30); (2, 10); (1, 20)]%Z)
    ∧ hi ∈ sorted_by_value (queue_of int_less int_less 0 [(1, 30); (2, 10); (1, 20)]%Z)
    ∧ minValue (queue_of int_less int_less 0 [(1, 30); (2, 10); (1, 20)]%Z) = Ret (obj lo.2)
    ∧ minKey (queue_of int_less int_less 0 [(1, 30); (2, 10); (1, 20)]%Z) = Ret (obj lo.1)
    ∧ maxValue (queue_of int_less int_less 0 [(1, 30); (2, 10); (1, 20)]%Z) = Ret (obj hi.2)
    ∧ maxKey (queue_of int_less int_less 0 [(1, 30); (2, 10); (1, 20)]%Z) = Ret (obj hi.1)
    ∧ ∀ e, e ∈ sorted_by_value (queue_of int_less int_less 0 [(1, 30); (2, 10); (1, 20)]%Z) →
        int_less (obj e.2) (obj lo.2) = false
        ∧ (int_less (obj lo.2) (obj e.2) = false → int_less (obj e.1) (obj lo.1) = false)
        ∧ int_less (obj hi.2) (obj e.2) = false
        ∧ (int_less (obj e.2) (obj hi.2) = false → int_less (obj hi.1) (obj e.1) = false).
Proof.
  apply (accessors_return_extremes int_less int_less).
  - apply (inv_value_sorted int_less int_less).
    exact (queue_of_inv int_less int_less 0 [(1, 30); (2, 10); (1, 20)]%Z).
  - reflexivity.
Defined.

(** X7: when size() is 1 the four accessors return, minValue() equals
    maxValue() and minKey() equals maxKey(): the value and the key of
    the only element. *)
Theorem single_element_accessors_agree {K V} (q : @queue K V) :
  size q = 1 →
  ∃ e, sorted_by_value q = [e]
       ∧ minValue q = Ret (obj e.2) ∧ maxValue q = Ret (obj e.2)
       ∧ minKey q = Ret (obj e.1) ∧ maxKey q = Ret (obj e.1).
Proof.
  unfold size, minValue, maxValue, minKey, maxKey, empty.
  destruct (sorted_by_value q) as [|e [|e' c]]; [done | | done].
  intros _. by exists e.
Qed.

Lemma single_element_accessors_agree_witness :
  ∃ e, sorted_by_value example_receiver = [e]
       ∧ minValue example_receiver = Ret (obj e.2)
       ∧ maxValue example_receiver = Ret (obj e.2)
       ∧ minKey example_receiver = Ret (obj e.1)
       ∧ maxKey example_receiver = Ret (obj e.1).
Proof. apply (single_element_accessors_agree example_receiver). reflexivity. Defined.

(** ** The representation invariant through the operations *)

Section InvariantKept.
Context {K V : Type} (ltK : K → K → bool) (ltV : V → V → bool).
Context `{!StrictWeakOrder ltK, !StrictWeakOrder ltV}.
Implicit Types (q : @queue K V) (e : element K V).

Lemma addresses_below_mono n n' q :
  n ≤ n' → addresses_below n q → addresses_below n' q.
Proof.
  intros Hle Hq. unfold addresses_below in *.
  eapply Forall_impl; [done |]. simpl. lia.
Qed.

(** X8: [insert] keeps the representation invariant whatever happens:
    when it returns, the value index has gained exactly the new
    element; when it throws, the queue is the one before the call,
    and the exception is PriorityQueueInsertionException, or
    [std::bad_alloc] when it was one of the two [make_shared] calls
    that failed.  It never fails an assertion, and the addresses in
    the queue stay below the next free address. *)
Theorem insert_keeps_invariant key value q w :
  queue_inv ltK ltV q → addresses_below (next_addr w) q →
  ∃ r q' w',
    insert ltK ltV key value q w = (r, q', w')
    ∧ queue_inv ltK ltV q'
    ∧ addresses_below (next_addr w') q'
    ∧ ((r = Ret () ∧ sorted_by_value q' ≡ₚ new_element w key value :: sorted_by_value q)
       ∨ (r = Throw PriorityQueueInsertionException ∧ q' = q)
       ∨ (r = Throw BadAlloc ∧ q' = q ∧ fault_within 2 w)).
Proof.
  intros Hinv Hbelow. destruct w as [a f]; simpl in Hbelow.
  destruct (insert_fault_cases f) as [(n & -> & Hlt) | [(n & -> & Hlt) | Hf]].
  - eexists _, _, _. split; [by apply insert_bad_alloc_run |].
    split; [done |]. split.
    + simpl. eapply addresses_below_mono; [| done]. lia.
    + right; right. split; [done |]. split; [done |]. by exists n.
  - eexists _, _, _. split; [by apply insert_failing_run |]. cbn zeta.
    rewrite insert_undo_restores by done.
    split; [done |]. split; [| by right; left].
    simpl. eapply addresses_below_mono; [| done]. lia.
  - destruct (insert_preserves_inv ltK ltV key value q a Hinv Hbelow)
      as (q1 & Hrun & Hinv1 & Hbelow1 & Hperm1).
    rewrite insert_passing_run in Hrun by by left. cbn zeta in Hrun.
    apply (f_equal (λ r, r.1.2)) in Hrun; cbn [fst snd] in Hrun. subst q1.
    eexists _, _, _. split; [by apply insert_passing_run |]. cbn zeta.
    split; [done |]. split; [done |]. left. by split.
Qed.

(** X9: on a non-empty queue that satisfies the invariant, when no
    comparator throws, [deleteMin] passes its three assertions and
    returns; the element removed is the first of the value index, the
    one minValue() and minKey() report; it leaves both indices, and
    the invariant still holds. *)
Theorem deleteMin_removes_minimum q n :
  queue_inv ltK ltV q → empty q = false →
  ∃ e q',
    minValue q = Ret (obj e.2) ∧ minKey q = Ret (obj e.1)
    ∧ deleteMin ltK ltV q (World n None) = (Ret (), q', World n None)
    ∧ sorted_by_value q = e :: sorted_by_value q'
    ∧ key_index_elements (sorted_by_key q) ≡ₚ e :: key_index_elements (sorted_by_key q')
    ∧ queue_inv ltK ltV q'.
Proof.
  intros Hinv Hne. unfold minValue, minKey. rewrite Hne.
  destruct (sorted_by_value q) as [|e c] eqn:Hq; [by unfold empty in Hne; rewrite Hq in Hne |].
  destruct (deleteMin_preserves_inv ltK ltV q e c n Hinv Hq) as (q' & Hrun & Hq' & Hinv').
  exists e, q'. rewrite Hq'. do 4 (split; [done |]). split; [| done].
  rewrite <- (inv_same_elements _ _ _ Hinv), <- (inv_same_elements _ _ _ Hinv').
  by rewrite Hq, Hq'.
Qed.

(** X10: likewise [deleteMax] removes the last element of the value
    index, the one maxValue() and maxKey() report, from both indices,
    and keeps the invariant. *)
Theorem deleteMax_removes_maximum q n :
  queue_inv ltK ltV q → empty q = false →
  ∃ e q',
    maxValue q = Ret (obj e.2) ∧ maxKey q = Ret (obj e.1)
    ∧ deleteMax ltK ltV q (World n None) = (Ret (), q', World n None)
    ∧ sorted_by_value q = sorted_by_value q' ++ [e]
    ∧ key_index_elements (sorted_by_key q) ≡ₚ e :: key_index_elements (sorted_by_key q')
    ∧ queue_inv ltK ltV q'.
Proof.
  intros Hinv Hne. unfold maxValue, maxKey. rewrite Hne.
  destruct (last (sorted_by_value q)) as [e|] eqn:Hlast;
    [| apply last_None in Hlast; by unfold empty in Hne; rewrite Hlast in Hne].
  apply last_Some in Hlast as [c Hq].
  destruct (deleteMax_preserves_inv ltK ltV q e c n Hinv Hq) as (q' & Hrun & Hq' & Hinv').
  exists e, q'. rewrite Hq'. do 4 (split; [done |]). split; [| done].
  rewrite <- (inv_same_elements _ _ _ Hinv), <- (inv_same_elements _ _ _ Hinv').
  rewrite Hq, Hq'. by rewrite <- Permutation_cons_append.
Qed.
End InvariantKept.

(** The insert whose third container operation throws, on a queue of
    three elements. *)
Lemma insert_keeps_invariant_witness :
  ∃ r q' w',
    insert int_less int_less 5%Z 15%Z
      (queue_of int_less int_less 0 [(1, 30); (2, 10); (1, 20)]%Z) (World 6 (Some 4))
    = (r, q', w')
    ∧ queue_inv int_less int_less q'
    ∧ addresses_below (next_addr w') q'
    ∧ ((r = Ret ()
        ∧ sorted_by_value q'
          ≡ₚ new_element (World 6 (Some 4)) 5%Z 15%Z
             :: sorted_by_value (queue_of int_less int_less 0 [(1, 30); (2, 10); (1, 20)]%Z))
       ∨ (r = Throw PriorityQueueInsertionException
          ∧ q' = queue_of int_less int_less 0 [(1, 30); (2, 10); (1, 20)]%Z)
       ∨ (r = Throw BadAlloc
          ∧ q' = queue_of int_less int_less 0 [(1, 30); (2, 10); (1, 20)]%Z
          ∧ fault_within 2 (World 6 (Some 4)))).
Proof.
  apply (insert_keeps_invariant int_less int_less).
  - exact (queue_of_inv int_less int_less 0 [(1, 30); (2, 10); (1, 20)]%Z).
  - unfold addresses_below. vm_compute. repeat constructor.
Defined.

Lemma deleteMin_removes_minimum_witness :
  ∃ e q',
    minValue (queue_of int_less int_less 0 [(1, 30); (2, 10); (1, 20)]%Z) = Ret (obj e.2)
    ∧ minKey (queue_of int_less int_less 0 [(1, 30); (2, 10); (1, 20)]%Z) = Ret (obj e.1)
    ∧ deleteMin int_less int_less
        (queue_of int_less int_less 0 [(1, 30); (2, 10); (1, 20)]%Z) (World 6 None)
      = (Ret (), q', World 6 None)
    ∧ sorted_by_value (queue_of int_less int_less 0 [(1, 30); (2, 10); (1, 20)]%Z)
      = e :: sorted_by_value q'
    ∧ key_index_elements
        (sorted_by_key (queue_of int_less int_less 0 [(1, 30); (2, 10); (1, 20)]%Z))
      ≡ₚ e :: key_index_elements (sorted_by_key q')
    ∧ queue_inv int_less int_less q'.
Proof.
  apply (deleteMin_removes_minimum int_less int_less).
  - exact (queue_of_inv int_less int_less 0 [(1, 30); (2, 10); (1, 20)]%Z).
  - reflexivity.
Defined.

Lemma deleteMax_removes_maximum_witness :
  ∃ e q',
    maxValue (queue_of int_less int_less 0 [(1, 30); (2, 10); (1, 20)]%Z) = Ret (obj e.2)
    ∧ maxKey (queue_of int_less int_less 0 [(1, 30); (2, 10); (1, 20)]%Z) = Ret (obj e.1)
    ∧ deleteMax int_less int_less
        (queue_of int_less int_less 0 [(1, 30); (2, 10); (1, 20)]%Z) (World 6 None)
      = (Ret (), q', World 6 None)
    ∧ sorted_by_value (queue_of int_less int_less 0 [(1, 30); (2, 10); (1, 20)]%Z)
      = sorted_by_value q' ++ [e]
    ∧ key_index_elements
        (sorted_by_key (queue_of int_less int_less 0 [(1, 30); (2, 10); (1, 20)]%Z))
      ≡ₚ e :: key_index_elements (sorted_by_key q')
    ∧ queue_inv int_less int_less q'.
Proof.
  apply (deleteMax_removes_maximum int_less int_less).
  - exact (queue_of_inv int_less int_less 0 [(1, 30); (2, 10); (1, 20)]%Z).
  - reflexivity.
Defined.

(** ** merge keeps the invariant *)

Section LevelFind.
Context {Key C : Type} (lt : Key → Key → bool) `{!StrictWeakOrder lt}.
Implicit Types (m : list (Key * list C)) (k : Key) (f g h : list C → list C).

Lemma find_pos_app_miss k (l1 l2 : list (Key * list C)) :
  Forall (λ y, equiv lt k y.1 = false) l1 →
  find_pos fst lt k (l1 ++ l2) = (λ i, length l1 + i) <$> find_pos fst lt k l2.
Proof.
  induction 1 as [|y l1 Hy Hl1 IH]; simpl.
  - by destruct (find_pos fst lt k l2).
  - rewrite Hy, IH. by destruct (find_pos fst lt k l2).
Qed.

(** After [try_emplace(k)], [find(k)] returns the same iterator. *)
Lemma find_pos_try_emplace k b0 m :
  find_pos fst lt k (try_emplace fst lt (k, b0) m).2
  = Some (try_emplace fst lt (k, b0) m).1.1.
Proof.
  unfold try_emplace; cbn [fst snd].
  destruct (find_pos fst lt k m) as [i|] eqn:Hfind; cbn [fst snd]; [done |].
  apply find_pos_None in Hfind. unfold insert_at.
  rewrite find_pos_app_miss by by apply Forall_take.
  simpl. rewrite (equiv_refl lt). simpl. f_equal.
  rewrite length_take, Nat.add_0_r. apply Nat.min_l, upper_bound_le.
Qed.

Lemma find_pos_on_second k f i m :
  find_pos fst lt k (on_second f i m) = find_pos fst lt k m.
Proof.
  unfold on_second. revert i; induction m as [|[k' b] m IH]; intros [|i]; simpl; [done.. |].
  destruct (equiv lt k k'); [done |]. f_equal. apply IH.
Qed.

Lemma try_emplace_present k b0 m i :
  find_pos fst lt k m = Some i → try_emplace fst lt (k, b0) m = (i, false, m).
Proof. unfold try_emplace; cbn [fst]. by intros ->. Qed.

(** [m[k]] on a map that [insert] or [try_emplace] already gave the
    key [k] is [m[k]] on the map before. *)
Lemma at_key_after_try_emplace k f m :
  at_key lt k f (try_emplace fst lt (k, []) m).2 = at_key lt k f m.
Proof.
  unfold at_key.
  by rewrite (try_emplace_present k [] _ _ (find_pos_try_emplace k [] m)).
Qed.

Lemma at_key_at_key k g h m :
  at_key lt k h (at_key lt k g m) = at_key lt k (h ∘ g) m.
Proof.
  unfold at_key.
  rewrite (try_emplace_present k [] (on_second g _ _) (try_emplace fst lt (k, []) m).1.1).
  - cbn [fst snd]. apply on_second_compose.
  - rewrite find_pos_on_second. apply find_pos_try_emplace.
Qed.

Lemma at_key_ext k f g m : (∀ b, f b = g b) → at_key lt k f m = at_key lt k g m.
Proof.
  intros Hfg. unfold at_key, on_second. apply list_alter_ext; [| done].
  intros [k' b] _. simpl. by rewrite Hfg.
Qed.
End LevelFind.

Section MergeInvariant.
Context {K V : Type} (ltK : K → K → bool) (ltV : V → V → bool).
Context `{!StrictWeakOrder ltK, !StrictWeakOrder ltV}.
Implicit Types (s : @merge_state K V) (e : element K V) (m : key_map K V).

(** The three statements of the loop body on [sorted_by_key] amount
    to the last one. *)
Lemma merge_key_steps e m :
  insert_at_key_value ltK ltV e
    (at_key (KeyComparer ltK) e.1 (λ g, (try_emplace fst (ValueComparer ltV) (e.2, []) g).2)
       (try_emplace fst (KeyComparer ltK) (e.1, []) m).2)
  = insert_at_key_value ltK ltV e m.
Proof.
  unfold insert_at_key_value.
  rewrite (at_key_after_try_emplace (KeyComparer ltK)).
  rewrite (at_key_at_key (KeyComparer ltK)).
  apply at_key_ext. intros g. unfold compose.
  apply (at_key_after_try_emplace (ValueComparer ltV)).
Qed.

Lemma merge_transfer_effect_this e s :
  (merge_transfer_effect ltK ltV e s).1.1
  = Queue (oc_insert id (ValueKeyComparer ltK ltV) e (sorted_by_value s.1.1)).2
          (insert_at_key_value ltK ltV e (sorted_by_key s.1.1)).
Proof.
  destruct e as [k v], s as [[[c m] other] l]. unfold merge_transfer_effect; cbn zeta.
  unfold on_key_rollback, on_this, on_value_rollback, set_by_key, set_by_value;
    cbn [fst snd sorted_by_value sorted_by_key].
  f_equal. apply (merge_key_steps (k, v)).
Qed.

(** The receiver after the transfer of the elements [l]. *)
Lemma merge_transfers_inv (l : list (element K V)) s :
  let a' := (foldl (λ s e, merge_transfer_effect ltK ltV e s) s l).1.1 in
  value_index_sorted ltK ltV (sorted_by_value s.1.1) →
  key_index_ok ltK ltV (sorted_by_key s.1.1) →
  sorted_by_value s.1.1 ≡ₚ key_index_elements (sorted_by_key s.1.1) →
  value_index_sorted ltK ltV (sorted_by_value a')
  ∧ key_index_ok ltK ltV (sorted_by_key a')
  ∧ sorted_by_value a' ≡ₚ key_index_elements (sorted_by_key a')
  ∧ sorted_by_value a' ≡ₚ sorted_by_value s.1.1 ++ l.
Proof.
  revert s; induction l as [|e l IH]; intros s; cbn zeta.
  - intros ???. simpl. by rewrite app_nil_r.
  - intros Hsorted Hkey Hsame. simpl.
    pose proof (merge_transfer_effect_this e s) as Hthis.
    destruct (IH (merge_transfer_effect ltK ltV e s)) as (H1 & H2 & H3 & H4).
    + rewrite Hthis; simpl. by apply (oc_insert_sorted (ValueKeyComparer ltK ltV)).
    + rewrite Hthis; simpl. by apply insert_at_key_value_ok.
    + rewrite Hthis; simpl. rewrite insert_at_perm, insert_at_key_value_elements.
      by constructor.
    + split; [done |]. split; [done |]. split; [done |].
      rewrite H4, Hthis; simpl. rewrite insert_at_perm. simpl. apply Permutation_middle.
Qed.

Lemma merge_distinct_ret_state (a b : @queue K V) w u a' b' w' :
  merge_distinct ltK ltV (a, b) w = (Ret u, (a', b'), w') →
  a' = (foldl (λ s e, merge_transfer_effect ltK ltV e s) (a, b, MergeLocals [] [])
          (sorted_by_value b)).1.1
  ∧ b' = Queue [] [].
Proof.
  rewrite merge_distinct_unfold.
  destruct (for_each _ _ _ w) as [[[[]|ex|] s1] w1] eqn:Hfe;
    [| by destruct (sorted_by_key_rollback s1.2) | done].
  apply for_each_merge_transfer_ret in Hfe as ->.
  intros H. by injection H as <- <- <-.
Qed.

(** X11: a [merge] of two distinct queues returns when nothing
    throws, and a [merge] that returns leaves the receiver with its own
    elements and those of the argument, the very same shared keys and
    values, in the order of the value index and grouped in the key
    index: the receiver satisfies the representation invariant when
    it did before and the two queues had no element in common.  The
    argument is left empty. *)
Theorem merge_keeps_invariant (st : list (@queue K V)) this other a b w :
  this ≠ other → st !! this = Some a → st !! other = Some b →
  queue_inv ltK ltV a →
  NoDup (idents <$> sorted_by_value a ++ sorted_by_value b) →
  (fault w = None → ∃ st', merge ltK ltV this other st w = (Ret (), st', w))
  ∧ ∀ st' w',
      merge ltK ltV this other st w = (Ret (), st', w') →
      ∃ a',
        st' !! this = Some a'
        ∧ st' !! other = Some empty_queue
        ∧ sorted_by_value a' ≡ₚ sorted_by_value a ++ sorted_by_value b
        ∧ queue_inv ltK ltV a'.
Proof.
  intros Hne Ha Hb [Hsorted Hkey Hsame _] Hnd. unfold merge.
  rewrite decide_False, Ha, Hb by done. split.
  { destruct w as [n f]. cbn [fault]. intros ->.
    destruct (merge_distinct_no_fault ltK ltV a b n) as (a' & b' & ->). simpl. eauto. }
  intros st' w'.
  destruct (merge_distinct ltK ltV (a, b) w) as [[r [a' b']] w1] eqn:Hm; cbn [fst snd].
  intros H. injection H as -> <- <-.
  apply merge_distinct_ret_state in Hm as [-> ->].
  destruct (merge_transfers_inv (sorted_by_value b) (a, b, MergeLocals [] []))
    as (H1 & H2 & H3 & H4); [done.. |].
  eexists. split; [| split; [| split; [exact H4 |]]].
  - rewrite list_lookup_insert_ne by done.
    apply list_lookup_insert_eq. by eapply lookup_lt_Some.
  - apply list_lookup_insert_eq. rewrite length_insert. by eapply lookup_lt_Some.
  - split; [done.. |]. by rewrite H4.
Qed.
End MergeInvariant.

(** A queue of one element receives a queue of two, all with integer
    keys and values. *)
Lemma merge_keeps_invariant_witness :
  (fault (World 6 None) = None →
   ∃ st',
     merge int_less int_less 0 1
       [queue_of int_less int_less 0 [(5, 50)]%Z;
        queue_of int_less int_less 2 [(1, 10); (2, 20)]%Z] (World 6 None)
     = (Ret (), st', World 6 None))
  ∧ ∀ st' w',
      merge int_less int_less 0 1
        [queue_of int_less int_less 0 [(5, 50)]%Z;
         queue_of int_less int_less 2 [(1, 10); (2, 20)]%Z] (World 6 None)
      = (Ret (), st', w') →
      ∃ a',
        st' !! 0 = Some a'
        ∧ st' !! 1 = Some empty_queue
        ∧ sorted_by_value a'
          ≡ₚ sorted_by_value (queue_of int_less int_less 0 [(5, 50)]%Z)
             ++ sorted_by_value (queue_of int_less int_less 2 [(1, 10); (2, 20)]%Z)
        ∧ queue_inv int_less int_less a'.
Proof.
  apply (merge_keeps_invariant int_less int_less
           [queue_of int_less int_less 0 [(5, 50)]%Z;
            queue_of int_less int_less 2 [(1, 10); (2, 20)]%Z]
           0 1 _ _ (World 6 None)).
  - lia.
  - reflexivity.
  - reflexivity.
  - exact (queue_of_inv int_less int_less 0 [(5, 50)]%Z).
  - vm_compute. repeat constructor; rewrite ?not_elem_of_cons;
      repeat split; try discriminate; apply not_elem_of_nil.
Defined.

(** ** insert followed by the removal of the extreme *)

Section InsertExtreme.
Context {K V : Type} (ltK : K → K → bool) (ltV : V → V → bool).
Context `{!StrictWeakOrder ltK, !StrictWeakOrder ltV}.
Implicit Types (q : @queue K V) (e : element K V) (c : list (element K V)).

Lemma insert_before_all e c :
  Forall (λ y, ltV (obj e.2) (obj y.2) = true) c →
  (oc_insert id (ValueKeyComparer ltK ltV) e c).2 = e :: c.
Proof.
  unfold oc_insert, insert_at; simpl. destruct c as [|y c]; [done |].
  intros [Hy _]%Forall_cons. cbn [upper_bound id].
  assert (ValueKeyComparer ltK ltV e y = true) as ->
    by (unfold ValueKeyComparer; by rewrite Hy).
  done.
Qed.

Lemma insert_after_all e c :
  Forall (λ y, ltV (obj y.2) (obj e.2) = true) c →
  (oc_insert id (ValueKeyComparer ltK ltV) e c).2 = c ++ [e].
Proof.
  unfold oc_insert, insert_at; simpl. induction 1 as [|y c Hy Hc IH]; [done |].
  cbn [upper_bound id].
  assert (ValueKeyComparer ltK ltV e y = false) as ->
    by (unfold ValueKeyComparer; by rewrite (lt_asym ltV _ _ Hy), Hy).
  cbn [take drop app]. by rewrite IH.
Qed.

Lemma insert_run_value_index key value q n :
  ∃ q1,
    insert ltK ltV key value q (World n None) = (Ret (), q1, World (S (S n)) None)
    ∧ sorted_by_value q1
      = (oc_insert id (ValueKeyComparer ltK ltV) (Ptr n key, Ptr (S n) value)
           (sorted_by_value q)).2.
Proof. eexists. split; [by rewrite insert_passing_run by by left |]. done. Qed.

(** X12: when [value] is smaller than every value in the queue,
    insert(key, value) puts the new element first: minValue() and
    minKey() then return [value] and [key], and a deleteMin() gives
    back the value index the queue had before the insert. *)
Theorem insert_minimum_then_deleteMin key value q n :
  queue_inv ltK ltV q → addresses_below n q →
  Forall (λ e, ltV value (obj e.2) = true) (sorted_by_value q) →
  ∃ q1 q2,
    insert ltK ltV key value q (World n None) = (Ret (), q1, World (S (S n)) None)
    ∧ minValue q1 = Ret value ∧ minKey q1 = Ret key
    ∧ deleteMin ltK ltV q1 (World (S (S n)) None) = (Ret (), q2, World (S (S n)) None)
    ∧ sorted_by_value q2 = sorted_by_value q
    ∧ queue_inv ltK ltV q2.
Proof.
  intros Hinv Hbelow Hsmall.
  destruct (insert_preserves_inv ltK ltV key value q n Hinv Hbelow) as (q1 & Hrun & Hinv1 & _).
  destruct (insert_run_value_index key value q n) as (q1' & Hrun' & Hq1).
  rewrite Hrun in Hrun'. injection Hrun' as <-.
  rewrite insert_before_all in Hq1 by done.
  destruct (deleteMin_preserves_inv ltK ltV q1 _ _ (S (S n)) Hinv1 Hq1)
    as (q2 & Hdel & Hq2 & Hinv2).
  exists q1, q2. unfold minValue, minKey, empty. rewrite Hq1. by simpl.
Qed.

(** X13: when [value] is greater than every value in the queue,
    insert(key, value) puts the new element last: maxValue() and
    maxKey() then return [value] and [key], and a deleteMax() gives
    back the value index the queue had before the insert. *)
Theorem insert_maximum_then_deleteMax key value q n :
  queue_inv ltK ltV q → addresses_below n q →
  Forall (λ e, ltV (obj e.2) value = true) (sorted_by_value q) →
  ∃ q1 q2,
    insert ltK ltV key value q (World n None) = (Ret (), q1, World (S (S n)) None)
    ∧ maxValue q1 = Ret value ∧ maxKey q1 = Ret key
    ∧ deleteMax ltK ltV q1 (World (S (S n)) None) = (Ret (), q2, World (S (S n)) None)
    ∧ sorted_by_value q2 = sorted_by_value q
    ∧ queue_inv ltK ltV q2.
Proof.
  intros Hinv Hbelow Hgreat.
  destruct (insert_preserves_inv ltK ltV key value q n Hinv Hbelow) as (q1 & Hrun & Hinv1 & _).
  destruct (insert_run_value_index key value q n) as (q1' & Hrun' & Hq1).
  rewrite Hrun in Hrun'. injection Hrun' as <-.
  rewrite insert_after_all in Hq1 by done.
  destruct (deleteMax_preserves_inv ltK ltV q1 _ _ (S (S n)) Hinv1 Hq1)
    as (q2 & Hdel & Hq2 & Hinv2).
  exists q1, q2. unfold maxValue, maxKey, empty. rewrite Hq1, last_snoc.
  assert (is_nil (sorted_by_value q ++ [(Ptr n key, Ptr (S n) value)]) = false) as ->
    by by destruct (sorted_by_value q).
  by simpl.
Qed.
End InsertExtreme.

(** The values 30, 10, 20 are in the queue; 5 is inserted. *)
Lemma insert_minimum_then_deleteMin_witness :
  ∃ q1 q2,
    insert int_less int_less 7%Z 5%Z
      (queue_of int_less int_less 0 [(1, 30); (2, 10); (1, 20)]%Z) (World 6 None)
    = (Ret (), q1, World 8 None)
    ∧ minValue q1 = Ret 5%Z ∧ minKey q1 = Ret 7%Z
    ∧ deleteMin int_less int_less q1 (World 8 None) = (Ret (), q2, World 8 None)
    ∧ sorted_by_value q2
      = sorted_by_value (queue_of int_less int_less 0 [(1, 30); (2, 10); (1, 20)]%Z)
    ∧ queue_inv int_less int_less q2.
Proof.
  apply (insert_minimum_then_deleteMin int_less int_less).
  - exact (queue_of_inv int_less int_less 0 [(1, 30); (2, 10); (1, 20)]%Z).
  - unfold addresses_below. vm_compute. repeat constructor.
  - vm_compute. repeat constructor.
Defined.

(** The values 30, 10, 20 are in the queue; 50 is inserted. *)
Lemma insert_maximum_then_deleteMax_witness :
  ∃ q1 q2,
    insert int_less int_less 7%Z 50%Z
      (queue_of int_less int_less 0 [(1, 30); (2, 10); (1, 20)]%Z) (World 6 None)
    = (Ret (), q1, World 8 None)
    ∧ maxValue q1 = Ret 50%Z ∧ maxKey q1 = Ret 7%Z
    ∧ deleteMax int_less int_less q1 (World 8 None) = (Ret (), q2, World 8 None)
    ∧ sorted_by_value q2
      = sorted_by_value (queue_of int_less int_less 0 [(1, 30); (2, 10); (1, 20)]%Z)
    ∧ queue_inv int_less int_less q2.
Proof.
  apply (insert_maximum_then_deleteMax int_less int_less).
  - exact (queue_of_inv int_less int_less 0 [(1, 30); (2, 10); (1, 20)]%Z).
  - unfold addresses_below. vm_compute. repeat constructor.
  - vm_compute. repeat constructor.
Defined.

(** ** changeValue on a key that is present *)

Section ChangeValuePresent.
Context {K V : Type} (ltK : K → K → bool) (ltV : V → V → bool).
Context `{!StrictWeakOrder ltK, !StrictWeakOrder ltV}.
Implicit Types (q : @queue K V) (e : element K V) (c : list (element K V)).

Lemma carried_key_found q key a :
  queue_inv ltK ltV q → carries_key ltK q key →
  ∃ i kp ov g,
    find_pos fst (KeyComparer ltK) (Ptr a key) (sorted_by_key q) = Some i
    ∧ sorted_by_key q !! i = Some (kp, ov :: g).
Proof.
  intros [_ [Hdist Hall] Hsame _] (e & He & Heq).
  rewrite Hsame in He. unfold key_index_elements in He.
  apply list_elem_of_bind in He as ([kp g] & Heg & Hin).
  apply list_elem_of_lookup in Hin as [i Hi].
  rewrite Forall_forall in Hall.
  destruct (Hall (kp, g)) as (Hg & _ & Hgall); [by eapply list_elem_of_lookup_2 |].
  simpl in *. unfold value_map_elements in Heg.
  apply list_elem_of_bind in Heg as ([vp s] & Hes & Hs).
  rewrite Forall_forall in Hgall. destruct (Hgall _ Hs) as [_ Hsok]. simpl in *.
  unfold sub_group_ok in Hsok. rewrite Forall_forall in Hsok.
  destruct (Hsok _ Hes) as [Hek _].
  change (equiv ltK (obj e.1) (obj kp) = true) in Hek.
  destruct g as [|ov g]; [done |].
  exists i, kp, ov, g. split; [| done].
  apply (find_pos_entry (KeyComparer ltK) _ i kp (ov :: g)); [done | done |].
  change (equiv ltK key (obj kp) = true).
  by rewrite (equiv_equiv_l ltK _ _ _ Heq).
Qed.
Lemma changeValue_present_run key value q a f i kp ov g :
  find_pos fst (KeyComparer ltK) (Ptr a key) (sorted_by_key q) = Some i →
  sorted_by_key q !! i = Some (kp, ov :: g) →
  let k := Ptr a key in
  let nv := Ptr (S a) value in
  let erased :=
    set_by_value (erase_key id (ValueKeyComparer ltK ltV) (k, ov.1))
      (set_by_key (on_second (delete 0) i) q) in
  let emplaced :=
    set_by_key (on_second (λ g, (try_emplace fst (ValueComparer ltV) (nv, []) g).2) i) in
  let restored q' :=
    set_by_value (λ c, (oc_insert id (ValueKeyComparer ltK ltV) (k, ov.1) c).2)
      (set_by_key (on_second (λ g, (try_emplace fst (ValueComparer ltV) ov g).2) i) q') in
  changeValue ltK ltV key value q (World a f)
  = match f with
    | Some 0 => (Throw BadAlloc, q, World a None)
    | Some 1 => (Throw ContainerFailure, q, World (S a) None)
    | Some 2 =>
        (Throw ContainerFailure, set_by_key (on_second (delete 0) i) q, World (S a) None)
    | Some 3 => (Throw BadAlloc, erased, World (S a) None)
    | Some 4 =>
        (Throw PriorityQueueInsertionException, restored erased, World (S (S a)) None)
    | Some 5 =>
        (Throw PriorityQueueInsertionException,
         restored
           (set_by_key (on_second (erase_key fst (ValueComparer ltV) nv) i)
              (emplaced erased)),
         World (S (S a)) None)
    | Some (S (S (S (S (S (S n)))))) =>
        (Ret (),
         set_by_value (λ c, (oc_insert id (ValueKeyComparer ltK ltV) (k, nv) c).2)
           (emplaced erased),
         World (S (S a)) (Some n))
    | None =>
        (Ret (),
         set_by_value (λ c, (oc_insert id (ValueKeyComparer ltK ltV) (k, nv) c).2)
           (emplaced erased),
         World (S (S a)) None)
    end.
Proof.
  intros Hfind Hi.
  unfold changeValue, mbind, M_bind, make_shared, get, tick; simpl.
  destruct f as [[|[|[|[|[|[|n]]]]]]|]; simpl; [done | done | | | | | |];
    rewrite Hfind; unfold second_at; rewrite Hi; reflexivity.
Qed.

Lemma other_keys_insert key x c :
  equiv ltK key (obj x.1) = true →
  elements_of_other_keys ltK key (oc_insert id (ValueKeyComparer ltK ltV) x c).2
  = elements_of_other_keys ltK key c.
Proof.
  intros Hx. unfold elements_of_other_keys, oc_insert, insert_at. cbn [snd].
  rewrite List.filter_app. cbn [List.filter]. rewrite Hx. cbn [negb].
  by rewrite <- List.filter_app, take_drop.
Qed.

Lemma other_keys_erase key a vp c :
  elements_of_other_keys ltK key
    (erase_key id (ValueKeyComparer ltK ltV) (Ptr a key, vp) c)
  = elements_of_other_keys ltK key c.
Proof.
  unfold elements_of_other_keys, erase_key.
  induction c as [|y c IH]; [done |]. cbn [List.filter].
  destruct (equiv (ValueKeyComparer ltK ltV) (Ptr a key, vp) (id y)) eqn:Hy; cbn [negb].
  - assert (equiv ltK key (obj y.1) = true) as ->; [| done].
    revert Hy. unfold equiv, ValueKeyComparer, id. cbn [fst snd obj].
    destruct (ltV (obj vp) (obj y.2)), (ltV (obj y.2) (obj vp)); try done.
  - cbn [List.filter]. by rewrite IH.
Qed.

Lemma erase_key_sorted x c :
  value_index_sorted ltK ltV c →
  value_index_sorted ltK ltV (erase_key id (ValueKeyComparer ltK ltV) x c).
Proof.
  unfold value_index_sorted, erase_key. induction 1 as [|y c Hc IH Hy]; [constructor |].
  cbn [List.filter]. destruct (negb _); [| done].
  constructor; [done |]. rewrite Forall_forall in Hy |- *.
  intros z Hz. apply Hy. apply list_elem_of_In, List.filter_In in Hz as [Hz _].
  by apply list_elem_of_In.
Qed.

Lemma on_second_other {Key B} (f : B → B) i j (m : list (Key * B)) :
  i ≠ j → on_second f i m !! j = m !! j.
Proof. intros Hij. unfold on_second. by rewrite list_lookup_alter_ne. Qed.

Lemma on_second_length {Key B} (f : B → B) i (m : list (Key * B)) :
  length (on_second f i m) = length m.
Proof. unfold on_second. by rewrite length_alter. Qed.

(** X14: changeValue(key, value) on a queue that satisfies the
    representation invariant and holds an element with an equivalent
    key stops at no assert and does not throw
    PriorityQueueNotFoundException.  When nothing fails it returns,
    and the new element is then in the value index.  When the first
    [make_shared] or the comparator of the lookup throws, that
    exception leaves the method as it is and the queue is unchanged.
    In every case the value index stays sorted, its elements with
    other keys are the same in the same order, and the groups of the
    other keys in the key index are untouched. *)
Theorem changeValue_present_key key value q w :
  queue_inv ltK ltV q → carries_key ltK q key →
  ∃ r q' w',
    changeValue ltK ltV key value q w = (r, q', w')
    ∧ r ≠ Abort ∧ r ≠ Throw PriorityQueueNotFoundException
    ∧ (fault w = None →
       r = Ret ()
       ∧ (Ptr (next_addr w) key, Ptr (S (next_addr w)) value) ∈ sorted_by_value q')
    ∧ (fault w = Some 0 → r = Throw BadAlloc ∧ q' = q)
    ∧ (fault w = Some 1 → r = Throw ContainerFailure ∧ q' = q)
    ∧ value_index_sorted ltK ltV (sorted_by_value q')
    ∧ elements_of_other_keys ltK key (sorted_by_value q')
      = elements_of_other_keys ltK key (sorted_by_value q)
    ∧ length (sorted_by_key q') = length (sorted_by_key q)
    ∧ (∀ j kp g, sorted_by_key q !! j = Some (kp, g) →
         equiv ltK key (obj kp) = false → sorted_by_key q' !! j = Some (kp, g)).
Proof.
  intros Hinv Hcarried. destruct w as [a f].
  destruct (carried_key_found q key a Hinv Hcarried) as (i & kp & ov & g & Hfind & Hi).
  pose proof (changeValue_present_run key value q a f i kp ov g Hfind Hi) as Hrun.
  cbv zeta in Hrun.
  pose proof (inv_value_sorted _ _ _ Hinv) as Hsorted.
  assert (∀ j kp' g', sorted_by_key q !! j = Some (kp', g') →
            equiv ltK key (obj kp') = false → i ≠ j) as Hother.
  { intros j kp' g' Hj Hne ->. rewrite Hi in Hj. injection Hj as <- <-.
    apply find_pos_Some in Hfind as (y & Hy & Hyeq). rewrite Hi in Hy.
    injection Hy as <-. change (equiv ltK key (obj kp) = true) in Hyeq. congruence. }
  assert (∀ x c, x ∈ (oc_insert id (ValueKeyComparer ltK ltV) x c).2) as Hnew.
  { intros x c. unfold oc_insert; cbn [snd]. rewrite insert_at_perm. by left. }
  assert (equiv ltK key key = true) as Hrefl by apply (equiv_refl ltK).
  cbv beta in Hrun.
  assert (∀ m : key_map K V,
            (∀ j, i ≠ j → m !! j = sorted_by_key q !! j) →
            ∀ j kp' g', sorted_by_key q !! j = Some (kp', g') →
              equiv ltK key (obj kp') = false → m !! j = Some (kp', g')) as Hgroups.
  { intros m Hm j kp' g' Hj Hne. rewrite Hm by eauto. done. }
  destruct f as [[|[|[|[|[|[|n]]]]]]|]; (eexists _, _, _; split; [exact Hrun |]);
    cbn [sorted_by_value sorted_by_key set_by_value set_by_key next_addr fault];
    (split; [done |]); (split; [done |]);
    (split; [first [done | intros _; split; [done | apply Hnew]] |]);
    (split; [first [done | by intros [=]] |]); (split; [first [done | by intros [=]] |]);
    rewrite ?on_second_length, ?other_keys_insert, ?other_keys_erase by done;
    (split; [first [done
                   | by apply erase_key_sorted
                   | by apply (oc_insert_sorted (ValueKeyComparer ltK ltV)),
                        erase_key_sorted] |]);
    (split; [done |]); (split; [done |]);
    apply Hgroups; intros j Hj; by rewrite ?on_second_other by done.
Qed.
End ChangeValuePresent.

(** The queue holds the keys 1, 2, 1; the value of key 2 is changed. *)
Lemma changeValue_present_key_witness :
  ∃ r q' w',
    changeValue int_less int_less 2%Z 50%Z
      (queue_of int_less int_less 0 [(1, 30); (2, 10); (1, 20)]%Z) (World 6 None)
    = (r, q', w')
    ∧ r ≠ Abort ∧ r ≠ Throw PriorityQueueNotFoundException
    ∧ (fault (World 6 None) = None →
       r = Ret () ∧ (Ptr 6 2%Z, Ptr 7 50%Z) ∈ sorted_by_value q')
    ∧ (fault (World 6 None) = Some 0 →
       r = Throw BadAlloc
       ∧ q' = queue_of int_less int_less 0 [(1, 30); (2, 10); (1, 20)]%Z)
    ∧ (fault (World 6 None) = Some 1 →
       r = Throw ContainerFailure
       ∧ q' = queue_of int_less int_less 0 [(1, 30); (2, 10); (1, 20)]%Z)
    ∧ value_index_sorted int_less int_less (sorted_by_value q')
    ∧ elements_of_other_keys int_less 2%Z (sorted_by_value q')
      = elements_of_other_keys int_less 2%Z
          (sorted_by_value (queue_of int_less int_less 0 [(1, 30); (2, 10); (1, 20)]%Z))
    ∧ length (sorted_by_key q')
      = length (sorted_by_key (queue_of int_less int_less 0 [(1, 30); (2, 10); (1, 20)]%Z))
    ∧ (∀ j kp g,
         sorted_by_key (queue_of int_less int_less 0 [(1, 30); (2, 10); (1, 20)]%Z) !! j
         = Some (kp, g) →
         equiv int_less 2%Z (obj kp) = false → sorted_by_key q' !! j = Some (kp, g)).
Proof.
  apply (changeValue_present_key int_less int_less).
  - exact (queue_of_inv int_less int_less 0 [(1, 30); (2, 10); (1, 20)]%Z).
  - exists (Ptr 2 2%Z, Ptr 3 10%Z). split; [| done].
    vm_compute. apply elem_of_cons. by left.
Defined.

(** ** The comparers *)

(** X15: when [<] on keys and [<] on values are strict weak
    orderings, so are KeyComparer, ValueComparer and
    ValueKeyComparer, as the ordered containers require of their
    Compare; two elements are equivalent for ValueKeyComparer exactly
    when their values are equivalent and their keys are equivalent. *)
Theorem comparers_are_strict_weak_orders {K V} (ltK : K → K → bool) (ltV : V → V → bool) :
  StrictWeakOrder ltK → StrictWeakOrder ltV →
  StrictWeakOrder (KeyComparer ltK)
  ∧ StrictWeakOrder (ValueComparer ltV)
  ∧ StrictWeakOrder (ValueKeyComparer ltK ltV)
  ∧ (∀ a b : element K V,
       equiv (ValueKeyComparer ltK ltV) a b
       = equiv ltV (obj a.2) (obj b.2) && equiv ltK (obj a.1) (obj b.1)).
Proof.
  intros HK HV. split; [apply _ |]. split; [apply _ |]. split; [apply _ |].
  intros a b. unfold equiv, ValueKeyComparer.
  by destruct (ltV (obj a.2) (obj b.2)), (ltV (obj b.2) (obj a.2)).
Qed.

Lemma comparers_are_strict_weak_orders_witness :
  StrictWeakOrder (KeyComparer int_less)
  ∧ StrictWeakOrder (ValueComparer int_less)
  ∧ StrictWeakOrder (ValueKeyComparer int_less int_less)
  ∧ (∀ a b : element Z Z,
       equiv (ValueKeyComparer int_less int_less) a b
       = equiv int_less (obj a.2) (obj b.2) && equiv int_less (obj a.1) (obj b.1)).
Proof.
  apply (comparers_are_strict_weak_orders int_less int_less); apply int_less_swo.
Defined.
